(** * libixp_rubythread: the Ruby green-thread backend of libixp

    A shallow embedding of [lib/libixp_rubythread/thread_ruby.c]:
    the [RWLock] class the backend defines by evaluating a bootstrap
    string in the interpreter, the C entry points that forward to the
    interpreter, the per-thread error buffer and the yielding I/O
    wrappers, followed by the properties of the backend's contract. *)

From Stdlib Require Import ZArith String.
From stdpp Require Import base gmap strings list.

Local Open Scope string_scope.
Local Open Scope list_scope.

(** ** Interpreter values and the method-call monad *)

Module Ruby.

(** Ruby threads (green threads) and addresses of string buffers. *)
Definition tid := nat.
Definition addr := nat.

(** The interpreter values the backend touches.  Arrays only ever hold
    threads here; [VString p] is a String object whose buffer
    ([RSTRING(val)->ptr]) lives at [p]; [VSelf] is the receiver of the
    running method. *)
Inductive VALUE : Type :=
| Qnil
| Qtrue
| Qfalse
| VThread (t : tid)
| VArray (l : list tid)
| VString (p : addr)
| VSelf.

#[global] Instance VALUE_eq_dec : EqDecision VALUE.
Proof. solve_decision. Defined.

Inductive exn : Type :=
| NoMethodError (recv : VALUE) (meth : string)
| RuntimeError
| TypeError.

(** What a suspended method call still has to do once its thread runs
    again: it sits in the [while] loop of [rdlock] or [wrlock] (with
    the local [cr]), it is about to enter one of them, or it is the
    part of [tryrdlock]/[trywrlock] after the inner call (value [true],
    then the [ensure] clause with its own [cr]). *)
Inductive frame : Type :=
| InRdlock (cr : bool)
| InWrlock (cr : bool)
| CallRdlock
| CallWrlock
| InTry (cr : bool).

(** A method call returns a value, raises, or stops the calling thread
    ([Thread.stop]); in the last case it carries the frames to resume,
    innermost first. *)
Inductive outcome (A : Type) : Type :=
| Ret (a : A)
| Raise (e : exn)
| Stop (k : list frame).
Arguments Ret {A} a.
Arguments Raise {A} e.
Arguments Stop {A} k.

(** A computation run by the thread [Thread.current] on a state [S]. *)
Definition prog (S A : Type) : Type := tid -> S -> outcome A * S.

Definition ret {S A} (a : A) : prog S A := fun _ s => (Ret a, s).

Definition bind {S A B} (m : prog S A) (f : A -> prog S B) : prog S B :=
  fun c s =>
    match m c s with
    | (Ret a, s') => f a c s'
    | (Raise e, s') => (Raise e, s')
    | (Stop k, s') => (Stop k, s')
    end.

Definition raise {S A} (e : exn) : prog S A := fun _ s => (Raise e, s).

Declare Scope rb_scope.
Delimit Scope rb_scope with rb.
Notation "x <- m ;; k" := (bind m (fun x => k))
  (at level 100, m at next level, right associativity) : rb_scope.
Notation "m ;; k" := (bind m (fun _ => k))
  (at level 100, right associativity) : rb_scope.
Local Open Scope rb_scope.

(** [begin m ensure fin end]: [fin] runs when [m] returns or raises;
    a stopped thread has not left the block yet. *)
Definition ensure {S A} (m : prog S A) (fin : prog S VALUE) : prog S A :=
  fun c s =>
    match m c s with
    | (Ret a, s') =>
        match fin c s' with
        | (Ret _, s'') => (Ret a, s'')
        | (Raise e, s'') => (Raise e, s'')
        | (Stop k, s'') => (Stop k, s'')
        end
    | (Raise e, s') =>
        match fin c s' with
        | (Ret _, s'') => (Raise e, s'')
        | (Raise e', s'') => (Raise e', s'')
        | (Stop k, s'') => (Stop k, s'')
        end
    | (Stop k, s') => (Stop k, s')
    end.

(** Records the enclosing frame when the computation stops inside it. *)
Definition in_frame {S A} (f : frame) (m : prog S A) : prog S A :=
  fun c s =>
    match m c s with
    | (Stop k, s') => (Stop (k ++ [f]), s')
    | r => r
    end.

(** The state a method of one [RWLock] object acts on: the object's
    instance variables, [Thread.critical], and the threads that are
    stopped and have not been woken. *)
Record rstate : Type := mkState {
  ivars : gmap string VALUE;
  critical : bool;
  asleep : gset tid
}.

Abbreviation M := (prog rstate).

(** Truth of a value: everything but [nil] and [false]. *)
Definition RTEST (v : VALUE) : bool :=
  match v with
  | Qnil | Qfalse => false
  | _ => true
  end.

Definition Qbool (b : bool) : VALUE := if b then Qtrue else Qfalse.

(** [a == b] and [a != b] on the values compared here. *)
Definition rb_eq (a b : VALUE) : bool := bool_decide (a = b).
Definition rb_ne (a b : VALUE) : bool := negb (rb_eq a b).

(** An instance variable that was never assigned reads as [nil]. *)
Definition ivar (name : string) : M VALUE :=
  fun _ s => (Ret (default Qnil (ivars s !! name)), s).

Definition ivar_set (name : string) (v : VALUE) : M VALUE :=
  fun _ s => (Ret v, mkState (<[name := v]> (ivars s)) (critical s) (asleep s)).

Definition Thread_current : M VALUE := fun c s => (Ret (VThread c), s).

Definition Thread_critical : M bool := fun _ s => (Ret (critical s), s).

Definition Thread_critical_set (b : bool) : M VALUE :=
  fun _ s => (Ret (Qbool b), mkState (ivars s) b (asleep s)).

(** [Thread.stop]: resets [Thread.critical] to false and puts the
    current thread to sleep. *)
Definition Thread_stop : M VALUE :=
  fun c s => (Stop [], mkState (ivars s) false ({[c]} ∪ asleep s)).

(** [t.wakeup]: marks [t] as eligible for scheduling; nothing happens
    to a thread that is not asleep.  The threads here are alive. *)
Definition wake (t : tid) (s : rstate) : rstate :=
  mkState (ivars s) (critical s) (asleep s ∖ {[t]}).

Definition Thread_wakeup (t : tid) : M VALUE := fun _ s => (Ret (VThread t), wake t s).

(** The methods of the core class Array that the bootstrap code can
    reach, by name: the value returned and, for a method that changes
    the array in place, its new contents.  Array answers to [push],
    [include?], [empty?] and [shift]; it has no method [remove!] and no
    method [empty]. *)
Definition Array_method (l : list tid) (meth : string) (args : list VALUE)
  : option (VALUE * option (list tid)) :=
  if String.eqb meth "push" then
    match args with
    | [VThread t] => Some (VArray (l ++ [t]), Some (l ++ [t]))
    | _ => None
    end
  else if String.eqb meth "include?" then
    match args with
    | [v] => Some (Qbool (bool_decide (v ∈ VThread <$> l)), None)
    | _ => None
    end
  else if String.eqb meth "empty?" then
    match args with
    | [] => Some (Qbool (bool_decide (l = [])), None)
    | _ => None
    end
  else if String.eqb meth "shift" then
    match args, l with
    | [], [] => Some (Qnil, None)
    | [], t :: l' => Some (VThread t, Some l')
    | _, _ => None
    end
  else None.

(** [@name.meth(args)]: a method call on the object an instance
    variable holds.  Arrays are only reachable through their instance
    variable, so a change in place is a change of the variable's
    contents.  A Thread answers to [wakeup]; [nil] to none of the
    methods used here. *)
Definition call_ivar (name meth : string) (args : list VALUE) : M VALUE :=
  recv <- ivar name ;;
  match recv with
  | VArray l =>
      match Array_method l meth args with
      | Some (v, Some l') => ivar_set name (VArray l') ;; ret v
      | Some (v, None) => ret v
      | None => raise (NoMethodError recv meth)
      end
  | VThread t =>
      if String.eqb meth "wakeup" && bool_decide (args = [])
      then Thread_wakeup t
      else raise (NoMethodError recv meth)
  | _ => raise (NoMethodError recv meth)
  end.

(** [l.each {|t| blk}] and [@name.each {|t| blk}] *)
Fixpoint each {S} (l : list tid) (blk : tid -> prog S VALUE) : prog S VALUE :=
  match l with
  | [] => ret Qnil
  | t :: l' => blk t ;; each l' blk
  end.

Definition ivar_each (name : string) (blk : tid -> M VALUE) : M VALUE :=
  recv <- ivar name ;;
  match recv with
  | VArray l => each l blk ;; ret recv
  | _ => raise (NoMethodError recv "each")
  end.

(** Short-circuit [&&], [||] and [!] on conditions. *)
Definition andM (a b : M bool) : M bool := x <- a ;; if x then b else ret false.
Definition orM (a b : M bool) : M bool := x <- a ;; if x then ret true else b.
Definition notM (a : M bool) : M bool := x <- a ;; ret (negb x).
Definition test (m : M VALUE) : M bool := v <- m ;; ret (RTEST v).
Definition neM (a b : M VALUE) : M bool := x <- a ;; y <- b ;; ret (rb_ne x y).
Definition eqM (a b : M VALUE) : M bool := x <- a ;; y <- b ;; ret (rb_eq x y).

End Ruby.

(** ** The class [RWLock] of the bootstrap string *)

Module RWLock.
Import Ruby.
Local Open Scope rb_scope.

Definition initialize : M VALUE :=
  ivar_set "@rdqueue" (VArray []) ;;
  ivar_set "@wrqueue" (VArray []) ;;
  ivar_set "@wrheld" Qnil ;;
  ivar_set "@rdheld" (VArray []).

(** One pass through the [while] of [rdlock], from the evaluation of
    its condition on: either the thread queues itself and stops (it
    comes back to the condition when it runs again), or the loop is
    left and the method finishes. *)
Definition rdlock_loop (cr : bool) : M VALUE :=
  in_frame (InRdlock cr)
    (b <- (Thread_critical_set true ;;
           andM (neM (ivar "@wrheld") (ret Qnil))
                (neM (ivar "@rwheld") Thread_current)) ;;
     if b then
       cur <- Thread_current ;;
       call_ivar "@rdqueue" "push" [cur] ;;
       Thread_stop
     else
       ivar_set "@wrheld" Qnil ;;
       cur <- Thread_current ;;
       call_ivar "@rdheld" "push" [cur] ;;
       ivar_each "@rdqueue" (fun t => Thread_wakeup t) ;;
       Thread_critical_set cr ;;
       ret VSelf).

Definition rdlock : M VALUE :=
  cr <- Thread_critical ;;
  rdlock_loop cr.

Definition wrlock_loop (cr : bool) : M VALUE :=
  in_frame (InWrlock cr)
    (b <- (Thread_critical_set true ;;
           orM (notM (test (call_ivar "@rdheld" "empty?" [])))
               (andM (neM (ivar "@wrheld") Thread_current)
                     (neM (ivar "@wrheld") (ret Qnil)))) ;;
     if b then
       cur <- Thread_current ;;
       call_ivar "@wrqueue" "push" [cur] ;;
       Thread_stop
     else
       cur <- Thread_current ;;
       ivar_set "@wrheld" cur ;;
       Thread_critical_set cr ;;
       ret VSelf).

Definition wrlock : M VALUE :=
  cr <- Thread_critical ;;
  wrlock_loop cr.

Definition tryrdlock : M VALUE :=
  cr <- Thread_critical ;;
  in_frame (InTry cr)
    (ensure
       (b <- eqM (ivar "@wrheld") (ret Qnil) ;;
        if b then rdlock ;; ret Qtrue else ret Qfalse)
       (Thread_critical_set cr)).

Definition trywrlock : M VALUE :=
  cr <- Thread_critical ;;
  in_frame (InTry cr)
    (ensure
       (b <- andM (eqM (ivar "@wrheld") (ret Qnil))
                  (test (call_ivar "@rdheld" "empty?" [])) ;;
        if b then wrlock ;; ret Qtrue else ret Qfalse)
       (Thread_critical_set cr)).

(** [unlock], first part: which mode does the caller hold? *)
Definition unlock_held : M VALUE :=
  held <- (cur <- Thread_current ;;
           test (call_ivar "@rdheld" "include?" [cur])) ;;
  if held then
    cur <- Thread_current ;;
    call_ivar "@rdheld" "remove!" [cur] ;;
    w <- test (ivar "@wrheld") ;;
    if w then raise RuntimeError else ret Qnil
  else
    b <- neM (ivar "@rwheld") Thread_current ;;
    if b then raise RuntimeError else ret Qnil.

(** [unlock], second part: release, then choose whom to wake. *)
Definition unlock_release : M VALUE :=
  ivar_set "@wrheld" Qnil ;;
  b <- andM (notM (test (call_ivar "@rwqueue" "empty?" [])))
            (test (call_ivar "@rdheld" "empty?" [])) ;;
  (if b then
     v <- call_ivar "@wrqueue" "shift" [] ;;
     ivar_set "@wrheld" v
   else
     b' <- notM (test (call_ivar "@rdqueue" "empty" [])) ;;
     if b' then
       v <- call_ivar "@rdqueue" "shift" [] ;;
       ivar_set "@wrheld" v
     else ret Qnil) ;;
  w <- test (ivar "@wrheld") ;;
  if w then call_ivar "@wrheld" "wakeup" [] else ret Qnil.

Definition unlock : M VALUE :=
  cr <- Thread_critical ;;
  ensure
    (Thread_critical_set true ;;
     unlock_held ;;
     unlock_release)
    (Thread_critical_set cr).

(** The methods the class defines, by name. *)
Definition method (meth : string) : option (M VALUE) :=
  if String.eqb meth "initialize" then Some initialize
  else if String.eqb meth "rdlock" then Some rdlock
  else if String.eqb meth "wrlock" then Some wrlock
  else if String.eqb meth "tryrdlock" then Some tryrdlock
  else if String.eqb meth "trywrlock" then Some trywrlock
  else if String.eqb meth "unlock" then Some unlock
  else None.

(** [RWLock.new]: the instance variables of a fresh object. *)
Definition new : gmap string VALUE :=
  ivars (snd (initialize 0 (mkState ∅ false ∅))).

(** What a frame does with the result of the computation inside it. *)
Definition continue (f : frame) (m : M VALUE) : M VALUE :=
  match f with
  | InRdlock cr => m ;; rdlock_loop cr
  | InWrlock cr => m ;; wrlock_loop cr
  | CallRdlock => m ;; rdlock
  | CallWrlock => m ;; wrlock
  | InTry cr =>
      in_frame (InTry cr) (ensure (m ;; ret Qtrue) (Thread_critical_set cr))
  end.

(** A stopped thread that runs again returns from [Thread.stop] and
    goes on through its frames, innermost first. *)
Definition resume (k : list frame) : M VALUE :=
  fold_left (fun m f => continue f m) k (ret Qnil).

(** Who holds the lock, as the object records it. *)
Definition readers (s : rstate) : VALUE := default Qnil (ivars s !! "@rdheld").
Definition writer (s : rstate) : VALUE := default Qnil (ivars s !! "@wrheld").
Definition rdqueue (s : rstate) : VALUE := default Qnil (ivars s !! "@rdqueue").
Definition wrqueue (s : rstate) : VALUE := default Qnil (ivars s !! "@wrqueue").

End RWLock.

(** ** Threads sharing one lock *)

Module Sched.
Import Ruby.

(** One lock and the threads that use it: a thread is either outside
    the lock's methods or suspended inside one, with the frames it
    resumes through. *)
Record system : Type := mkSystem {
  lock : rstate;
  suspended : gmap tid (list frame)
}.

Definition boot : system := mkSystem (mkState RWLock.new false ∅) ∅.

(** The methods the backend's entry points call. *)
Definition entry_points : list string :=
  ["rdlock"; "tryrdlock"; "wrlock"; "trywrlock"; "unlock"].

Definition settle (t : tid) (r : outcome VALUE * rstate)
    (w : gmap tid (list frame)) : system :=
  match r with
  | (Stop k, s) => mkSystem s (<[t := k]> w)
  | (_, s) => mkSystem s (delete t w)
  end.

(** The scheduler runs one thread at a time.  A method runs without a
    thread switch from the point where it sets [Thread.critical] to
    its end or to [Thread.stop]; [tryrdlock] and [trywrlock] test the
    lock before any critical section, so a switch can separate their
    test from the call that follows.  Threads are woken by the lock
    and by any other code, and the code around the calls may set
    [Thread.critical]. *)
Inductive step : system -> system -> Prop :=
| step_call sys t meth m :
    suspended sys !! t = None ->
    t ∉ asleep (lock sys) ->
    meth ∈ entry_points ->
    RWLock.method meth = Some m ->
    step sys (settle t (m t (lock sys)) (suspended sys))
| step_resume sys t k :
    suspended sys !! t = Some k ->
    t ∉ asleep (lock sys) ->
    step sys (settle t (RWLock.resume k t (lock sys)) (suspended sys))
| step_tryrdlock_switch sys t :
    suspended sys !! t = None ->
    t ∉ asleep (lock sys) ->
    critical (lock sys) = false ->
    RWLock.writer (lock sys) = Qnil ->
    step sys (mkSystem (lock sys)
                (<[t := [CallRdlock; InTry false]]> (suspended sys)))
| step_trywrlock_switch sys t :
    suspended sys !! t = None ->
    t ∉ asleep (lock sys) ->
    critical (lock sys) = false ->
    RWLock.writer (lock sys) = Qnil ->
    RWLock.readers (lock sys) = VArray [] ->
    step sys (mkSystem (lock sys)
                (<[t := [CallWrlock; InTry false]]> (suspended sys)))
| step_wakeup sys t :
    step sys (mkSystem (wake t (lock sys)) (suspended sys))
| step_critical sys b :
    step sys (mkSystem (mkState (ivars (lock sys)) b (asleep (lock sys)))
                (suspended sys)).

Inductive reachable : system -> Prop :=
| reachable_boot : reachable boot
| reachable_step sys sys' : reachable sys -> step sys sys' -> reachable sys'.

(** The lock is read-held when [@rdheld] lists a thread and write-held
    when [@wrheld] is a thread. *)
Definition read_held (s : rstate) : Prop :=
  exists t l, RWLock.readers s = VArray (t :: l).
Definition write_held (s : rstate) : Prop :=
  exists t, RWLock.writer s = VThread t.

End Sched.

(** ** The host library's interface *)

Module ixp.
Import Ruby.

(** The RWLock entries of [IxpThread], the table of functions a
    thread backend fills in. *)
Record IxpThread : Type := mkIxpThread {
  rlock : M unit;
  canrlock : M Z;
  wlock : M unit;
  canwlock : M Z;
  runlock : M unit;
  wunlock : M unit
}.

End ixp.

(** ** thread_ruby.c: the entry points of the backend *)

Module thread_ruby.
Import Ruby.
Local Open Scope rb_scope.

(** *** RWLock *)

(** [call(rw->aux, meth, 0)] on the object [initrwlock] saved in
    [rw->aux]: [rb_funcall] looks the method up by its interned name
    in the object's class. *)
Definition call_rwlock (meth : string) : M VALUE :=
  match RWLock.method meth with
  | Some m => m
  | None => raise (NoMethodError VSelf meth)
  end.

(** [save("RWLock.new", &rw->aux)], then [return 0]: the new object
    and the status. *)
Definition initrwlock : gmap string VALUE * Z := (RWLock.new, 0%Z).

Definition rlock : M unit := call_rwlock "rdlock" ;; ret tt.

Definition canrlock : M Z :=
  v <- call_rwlock "tryrdlock" ;; ret (Z.b2z (rb_eq v Qtrue)).

Definition wlock : M unit := call_rwlock "wrlock" ;; ret tt.

Definition canwlock : M Z :=
  v <- call_rwlock "trywrlock" ;; ret (Z.b2z (rb_eq v Qtrue)).

Definition rwunlock : M unit := call_rwlock "unlock" ;; ret tt.

(** The RWLock entries of the table [ixp_rthread]. *)
Definition ixp_rthread : ixp.IxpThread := {|
  ixp.rlock := rlock;
  ixp.canrlock := canrlock;
  ixp.wlock := wlock;
  ixp.canwlock := canwlock;
  ixp.runlock := rwunlock;
  ixp.wunlock := rwunlock
|}.

(** *** Rendez *)

Record IxpMutex : Type := mkMutex { m_aux : VALUE }.
Record IxpRendez : Type := mkRendez { r_aux : VALUE; r_mutex : IxpMutex }.

Section Interpreter.
  (** [Mutex] and [ConditionVariable] are classes of the interpreter's
      own [thread.rb]: what their methods do to the interpreter's
      state [W] is a parameter of the backend. *)
Context {W : Type}.
Variable rb_funcall : VALUE -> string -> list VALUE -> prog W VALUE.

Definition rsleep (r : IxpRendez) : prog W unit :=
    rb_funcall (r_aux r) "wait" [m_aux (r_mutex r)] ;; ret tt.

Definition rwake (r : IxpRendez) : prog W Z :=
    rb_funcall (r_aux r) "signal" [] ;; ret 0%Z.

Definition rwakeall (r : IxpRendez) : prog W Z :=
    rb_funcall (r_aux r) "broadcast" [] ;; ret 0%Z.
End Interpreter.

(** Modelled from the spec: the interpreter's ConditionVariable, which
    is not part of this repository.  "signal wakes at most one waiter
    on r; no-op if none waiting", "broadcast wakes all current
    waiters"; the state is the queue of waiting threads. *)
Definition condvar_funcall (recv : VALUE) (meth : string) (args : list VALUE)
  : prog (list tid) VALUE :=
  fun _ waiters =>
    if String.eqb meth "signal" then (Ret recv, tail waiters)
    else if String.eqb meth "broadcast" then (Ret recv, [])
    else (Raise (NoMethodError recv meth), waiters).

(** *** Yielding IO *)

(** Widths of [int] and [ssize_t] on the target. *)
Record abi : Type := mkAbi { int_bits : Z; ssize_bits : Z }.
Definition ILP32 : abi := mkAbi 32 32.
Definition LP64 : abi := mkAbi 32 64.

(** Conversion to a signed integer type of [bits] bits: the value
    modulo [2^bits], taken in the signed range. *)
Definition to_signed (bits x : Z) : Z :=
  ((x + 2 ^ (bits - 1)) mod 2 ^ bits - 2 ^ (bits - 1))%Z.

Section YieldingIO.
  (** The system calls and the scheduler act on a state [OS] that
      holds [errno]; [read] and [write] return their [ssize_t] result.
      The contents of the buffer are left out. *)
Context {OS : Type}.
Variable errno : OS -> Z.
Variable EINTR : Z.
Variable sys_read : Z -> Z -> OS -> Z * OS.
Variable sys_write : Z -> Z -> OS -> Z * OS.
Variable rb_thread_wait_fd : Z -> OS -> OS.
Variable rb_thread_fd_writable : Z -> OS -> OS.
Variable rb_thread_schedule : OS -> OS.
Variable target : abi.

Definition _read (fd size : Z) (st : OS) : Z * OS :=
    let st1 := rb_thread_wait_fd fd st in
    let '(r, st2) := sys_read fd size st1 in
    let n := to_signed (int_bits target) r in
    let st3 :=
      if (n <? 0)%Z && (errno st2 =? EINTR)%Z
      then rb_thread_schedule st2 else st2 in
    (to_signed (ssize_bits target) n, st3).

Definition _write (fd size : Z) (st : OS) : Z * OS :=
    let st1 := rb_thread_fd_writable fd st in
    let '(r, st2) := sys_write fd size st1 in
    let n := to_signed (int_bits target) r in
    let st3 :=
      if (n <? 0)%Z && (errno st2 =? EINTR)%Z
      then rb_thread_schedule st2 else st2 in
    (to_signed (ssize_bits target) n, st3).
End YieldingIO.

(** A concrete system to run the wrappers on: [errno], the number of
    times the scheduler was entered, and what the next transfer will
    do (its result and, when it fails, the error it sets). *)
Record os : Type := mkOs {
  os_errno : Z;
  os_yields : nat;
  os_next : Z * Z
}.

Definition os_transfer (fd size : Z) (o : os) : Z * os :=
  let '(r, e) := os_next o in
  (r, mkOs (if (r <? 0)%Z then e else os_errno o) (os_yields o) (os_next o)).

Definition os_wait (fd : Z) (o : os) : os :=
  mkOs (os_errno o) (S (os_yields o)) (os_next o).

Definition os_schedule (o : os) : os :=
  mkOs (os_errno o) (S (os_yields o)) (os_next o).

(** *** The error buffer *)

(** The part of the interpreter [errbuf] uses: its own static [key],
    the thread-local variables by thread and symbol, and the String
    objects with the address and length of their buffers. *)
Record interp : Type := mkInterp {
  key : Z;
  locals : gmap (tid * Z) VALUE;
  str_heap : gmap addr nat
}.

(** Symbols are interned to non-zero IDs, one per name. *)
Definition rb_intern (name : string) : Z := Z.pos (encode name).

Definition rb_thread_current : prog interp VALUE :=
  fun c st => (Ret (VThread c), st).

Definition rb_thread_local_aref (th : VALUE) (id : Z) : prog interp VALUE :=
  match th with
  | VThread t => fun _ st => (Ret (default Qnil (locals st !! (t, id))), st)
  | _ => raise TypeError
  end.

Definition rb_thread_local_aset (th : VALUE) (id : Z) (v : VALUE)
  : prog interp VALUE :=
  match th with
  | VThread t =>
      fun _ st =>
        (Ret v, mkInterp (key st) (<[(t, id) := v]> (locals st)) (str_heap st))
  | _ => raise TypeError
  end.

(** [rb_str_new(nil, len)]: a new String of length [len], at an
    address no live String occupies. *)
Definition rb_str_new (len : nat) : prog interp VALUE :=
  fun _ st =>
    let p := fresh (dom (str_heap st)) in
    (Ret (VString p), mkInterp (key st) (locals st) (<[p := len]> (str_heap st))).

Definition NIL_P (v : VALUE) : bool := rb_eq v Qnil.

Definition Check_Type_T_STRING (v : VALUE) : prog interp unit :=
  match v with
  | VString _ => ret tt
  | _ => raise TypeError
  end.

Definition RSTRING_ptr (v : VALUE) : addr :=
  match v with
  | VString p => p
  | _ => 0
  end.

Section ErrBuf.
  (** [IXP_ERRMAX] is declared in the library's header. *)
Variable IXP_ERRMAX : nat.

Definition errbuf : prog interp addr :=
    k <- (fun _ st => (Ret (key st), st)) ;;
    (if (k =? 0)%Z
     then (fun _ st =>
             (Ret tt, mkInterp (rb_intern "_ixp_errbuf") (locals st) (str_heap st)))
     else ret tt) ;;
    k <- (fun _ st => (Ret (key st), st)) ;;
    cur <- rb_thread_current ;;
    val <- rb_thread_local_aref cur k ;;
    val <- (if NIL_P val then
              v <- rb_str_new IXP_ERRMAX ;;
              cur' <- rb_thread_current ;;
              rb_thread_local_aset cur' k v ;;
              ret v
            else ret val) ;;
    Check_Type_T_STRING val ;;
    ret (RSTRING_ptr val).

  (** The calls of [errbuf] made by the threads [calls], in order:
      what each returned, and the interpreter afterwards. *)
Fixpoint errbuf_calls (calls : list tid) (st : interp)
    : list (outcome addr) * interp :=
    match calls with
    | [] => ([], st)
    | t :: rest =>
        let '(r, st1) := errbuf t st in
        let '(rs, st2) := errbuf_calls rest st1 in
        (r :: rs, st2)
    end.
End ErrBuf.

(** The interpreter before any call of [errbuf]. *)
Definition interp0 : interp := mkInterp 0 ∅ ∅.

(** The symbol under which a thread keeps its buffer. *)
Definition errbuf_key : Z := rb_intern "_ixp_errbuf".

(** What [errbuf] keeps true of the interpreter: its static key is
    unset or the interned symbol, what a thread keeps under the symbol
    is a live String of [n] bytes, and no two threads keep the same
    one. *)
Record errbuf_inv (n : nat) (st : interp) : Prop := mkErrbufInv {
  inv_key : key st = 0%Z \/ key st = errbuf_key;
  inv_buf : forall t v, locals st !! (t, errbuf_key) = Some v ->
            exists p, v = VString p /\ str_heap st !! p = Some n;
  inv_own : forall t t' p,
            locals st !! (t, errbuf_key) = Some (VString p) ->
            locals st !! (t', errbuf_key) = Some (VString p) -> t = t'
}.

End thread_ruby.


(** ** The shape of a lock object *)

Module Inv.
Import Ruby.

(** The instance variables of a lock hold two queues, the list of
    readers and the writer; the class assigns no other variable. *)
Definition shaped (s : rstate) (rq wq rh : list tid) (w : VALUE) : Prop :=
  ivars s !! "@rdqueue" = Some (VArray rq) /\
  ivars s !! "@wrqueue" = Some (VArray wq) /\
  ivars s !! "@rdheld" = Some (VArray rh) /\
  ivars s !! "@wrheld" = Some w /\
  ivars s !! "@rwheld" = None /\
  ivars s !! "@rwqueue" = None.

(** A lock is held by readers or by one writer, never by both. *)
Definition lock_inv (s : rstate) : Prop :=
  exists rq wq rh w,
    shaped s rq wq rh w /\
    (w = Qnil \/ (exists t, w = VThread t) /\ rh = []).

(** A computation keeps the invariant, whatever its outcome. *)
Definition preserves {A} (m : M A) : Prop :=
  forall c s, lock_inv s -> lock_inv (snd (m c s)).

(** The threads a list of wake-ups leaves asleep. *)
Definition woken (l : list tid) (a : gset tid) : gset tid :=
  a ∖ list_to_set l.

End Inv.

(** ** States used as examples *)

Module Scenario.
Import Ruby.

(** A fresh lock, outside any critical section, nobody asleep. *)
Definition fresh_lock : rstate := mkState RWLock.new false ∅.

(** Thread 1 has taken the write lock. *)
Definition write_locked : rstate := snd (RWLock.wrlock 1 fresh_lock).

(** Thread 1 has taken the write lock and thread 2 has asked for it. *)
Definition writer_waiting : rstate := snd (RWLock.wrlock 2 write_locked).

(** The same as systems: thread 1 calls [wrlock]; threads 1 and 2 call
    [rdlock] one after the other. *)
Definition sys_write_locked : Sched.system :=
  Sched.settle 1 (RWLock.wrlock 1 (Sched.lock Sched.boot))
    (Sched.suspended Sched.boot).

Definition sys_one_reader : Sched.system :=
  Sched.settle 1 (RWLock.rdlock 1 (Sched.lock Sched.boot))
    (Sched.suspended Sched.boot).

Definition sys_two_readers : Sched.system :=
  Sched.settle 2 (RWLock.rdlock 2 (Sched.lock sys_one_reader))
    (Sched.suspended sys_one_reader).

End Scenario.

(** ** What the lock keeps over time *)

Module Progress.
Import Ruby Inv.

(** An array that only had elements added at its end. *)
Definition extended (v v' : VALUE) : Prop :=
  forall l, v = VArray l -> exists x, v' = VArray (l ++ x).

(** [s'] continues [s]: the thread [s] records as writer is still the
    writer, and the readers and the two queues of [s] are initial
    segments of those of [s']. *)
Definition grows (s s' : rstate) : Prop :=
  (forall t, RWLock.writer s = VThread t -> RWLock.writer s' = VThread t)
  /\ extended (RWLock.readers s) (RWLock.readers s')
  /\ extended (RWLock.rdqueue s) (RWLock.rdqueue s')
  /\ extended (RWLock.wrqueue s) (RWLock.wrqueue s').

(** Nobody waits in the read queue of a lock without a writer. *)
Definition idle_queue (s : rstate) : Prop :=
  RWLock.writer s = Qnil -> RWLock.rdqueue s = VArray [].

(** A computation that keeps the invariant and the empty read queue of
    a lock without writer, only continues the lock and wakes nobody. *)
Definition orderly {A} (m : M A) : Prop :=
  forall c s, lock_inv s -> idle_queue s ->
    lock_inv (snd (m c s))
    /\ idle_queue (snd (m c s))
    /\ grows s (snd (m c s))
    /\ asleep s ⊆ asleep (snd (m c s)).

(** A thread stopped in the loop of [rdlock] stands in the read queue,
    one stopped in the loop of [wrlock] in the write queue. *)
Definition queued (c : tid) (k : list frame) (s : rstate) : Prop :=
  match k with
  | InRdlock _ :: _ => exists l, RWLock.rdqueue s = VArray l /\ c ∈ l
  | InWrlock _ :: _ => exists l, RWLock.wrqueue s = VArray l /\ c ∈ l
  | _ => True
  end.

(** A computation that only stops a caller it has queued. *)
Definition stops_queued {A} (m : M A) : Prop :=
  forall c s k s', lock_inv s -> m c s = (Stop k, s') -> queued c k s'.

End Progress.

(** Further example states. *)

Module Scenario2.
Import Ruby.

(** Thread 1 holds the write lock; thread 2 has called [rdlock] and
    thread 3 [wrlock], and both are stopped. *)
Definition sys_reader_queued : Sched.system :=
  Sched.settle 2 (RWLock.rdlock 2 (Sched.lock Scenario.sys_write_locked))
    (Sched.suspended Scenario.sys_write_locked).

Definition sys_both_queued : Sched.system :=
  Sched.settle 3 (RWLock.wrlock 3 (Sched.lock sys_reader_queued))
    (Sched.suspended sys_reader_queued).

End Scenario2.

(** * Properties *)

Import Ruby Inv.
Local Open Scope rb_scope.

(** ** Instance variables *)

Lemma rstate_eta (s : rstate) : mkState (ivars s) (critical s) (asleep s) = s.
Proof. by destruct s. Qed.

Lemma shaped_new : shaped (mkState RWLock.new false ∅) [] [] [] Qnil.
Proof. repeat split. Qed.

Ltac rb_run :=
  cbv beta iota zeta delta
    [bind ret raise ensure in_frame ivar ivar_set Thread_current
     Thread_critical Thread_critical_set Thread_stop Thread_wakeup wake
     call_ivar ivar_each andM orM notM test neM eqM from_option id
     ivars critical asleep fst snd RTEST Qbool negb andb orb].

Ltac ivars_simpl :=
  repeat first
    [ rewrite lookup_insert_eq
    | rewrite lookup_insert_ne by discriminate ].

Lemma each_wakeup l c s :
  each l (fun t => Thread_wakeup t) c s
  = (Ret Qnil, mkState (ivars s) (critical s) (woken l (asleep s))).
Proof.
  revert s. induction l as [|t l IH]; intros [iv cr a]; cbn [each]; rb_run.
  - unfold woken. cbn [list_to_set foldr]. by rewrite difference_empty_L.
  - rewrite IH. rb_run. unfold woken. cbn [list_to_set foldr].
    by rewrite difference_difference_l_L.
Qed.

Ltac rb_lookup :=
  repeat match goal with
  | H : ?m !! ?k = _ |- context [?m !! ?k] => rewrite H
  | |- context [<[?k := _]> _ !! ?k] => rewrite lookup_insert_eq
  | |- context [<[_ := _]> _ !! _] => rewrite lookup_insert_ne by discriminate
  end.

Ltac rb_go := repeat (progress (rb_run; rb_lookup)).

Lemma rdlock_loop_spec cr c s rq wq rh w :
  shaped s rq wq rh w ->
  RWLock.rdlock_loop cr c s =
    if bool_decide (w = Qnil)
    then (Ret VSelf,
          mkState (<["@rdheld" := VArray (rh ++ [c])]>
                     (<["@wrheld" := Qnil]> (ivars s)))
                  cr (woken rq (asleep s)))
    else (Stop [InRdlock cr],
          mkState (<["@rdqueue" := VArray (rq ++ [c])]> (ivars s))
                  false ({[c]} ∪ asleep s)).
Proof.
  destruct s as [iv cr0 a].
  intros (Hrq & Hwq & Hrh & Hw & Hrw & Hrwq). cbn [ivars critical asleep] in *.
  unfold RWLock.rdlock_loop. rb_go. unfold rb_ne, rb_eq.
  case_bool_decide as Hn; rb_go.
  - cbn [Array_method String.eqb Ascii.eqb Bool.eqb]. rb_go. rewrite each_wakeup. rb_go. done.
  - rewrite bool_decide_eq_false_2 by done. rb_go.
    cbn [Array_method String.eqb Ascii.eqb Bool.eqb]. rb_go. done.
Qed.

Ltac rb_array := cbn [Array_method String.eqb Ascii.eqb Bool.eqb].

Ltac rb_shaped s H :=
  destruct s as [iv cr0 a];
  pose proof H as Hsh;
  destruct H as (Hrq & Hwq & Hrh & Hw & Hrw & Hrwq);
  cbn [ivars critical asleep] in *.

Lemma rdlock_spec c s rq wq rh w :
  shaped s rq wq rh w ->
  RWLock.rdlock c s = RWLock.rdlock_loop (critical s) c s.
Proof. reflexivity. Qed.

Lemma wrlock_loop_spec cr c s rq wq rh w :
  shaped s rq wq rh w ->
  RWLock.wrlock_loop cr c s =
    if bool_decide (rh = []) &&
       (bool_decide (w = VThread c) || bool_decide (w = Qnil))
    then (Ret VSelf,
          mkState (<["@wrheld" := VThread c]> (ivars s)) cr (asleep s))
    else (Stop [InWrlock cr],
          mkState (<["@wrqueue" := VArray (wq ++ [c])]> (ivars s))
                  false ({[c]} ∪ asleep s)).
Proof.
  intros H. rb_shaped s H.
  unfold RWLock.wrlock_loop. rb_go. rb_array. rb_go.
  case_bool_decide as Hrhn; rb_go.
  - unfold rb_ne, rb_eq. case_bool_decide as Hwc; rb_go.
    + done.
    + case_bool_decide as Hwn; rb_go; [done|]. rb_array. rb_go. done.
  - rb_array. rb_go. done.
Qed.

Lemma wrlock_spec c s rq wq rh w :
  shaped s rq wq rh w ->
  RWLock.wrlock c s = RWLock.wrlock_loop (critical s) c s.
Proof. reflexivity. Qed.

Lemma tryrdlock_spec c s rq wq rh w :
  shaped s rq wq rh w ->
  RWLock.tryrdlock c s =
    if bool_decide (w = Qnil)
    then (Ret Qtrue,
          mkState (<["@rdheld" := VArray (rh ++ [c])]>
                     (<["@wrheld" := Qnil]> (ivars s)))
                  (critical s) (woken rq (asleep s)))
    else (Ret Qfalse, s).
Proof.
  intros H. rb_shaped s H.
  unfold RWLock.tryrdlock, RWLock.rdlock. rb_go. unfold rb_eq.
  case_bool_decide as Hn; rb_go; [|done].
  rewrite (rdlock_loop_spec _ _ _ _ _ _ _ Hsh).
  rewrite bool_decide_eq_true_2 by done. rb_go. done.
Qed.

Lemma trywrlock_spec c s rq wq rh w :
  shaped s rq wq rh w ->
  RWLock.trywrlock c s =
    if bool_decide (w = Qnil) && bool_decide (rh = [])
    then (Ret Qtrue,
          mkState (<["@wrheld" := VThread c]> (ivars s))
                  (critical s) (asleep s))
    else (Ret Qfalse, s).
Proof.
  intros H. rb_shaped s H.
  unfold RWLock.trywrlock, RWLock.wrlock. rb_go. unfold rb_eq.
  case_bool_decide as Hn; rb_go; [|done].
  rb_array. rb_go.
  case_bool_decide as Hrhn; rb_go; [|done].
  rewrite (wrlock_loop_spec _ _ _ _ _ _ _ Hsh).
  rewrite (bool_decide_eq_true_2 (rh = [])), (bool_decide_eq_true_2 (w = Qnil)) by done.
  rewrite orb_true_r. rb_go. done.
Qed.

Lemma include_thread (c : tid) (l : list tid) :
  bool_decide (VThread c ∈ VThread <$> l) = bool_decide (c ∈ l).
Proof.
  apply bool_decide_ext. rewrite list_elem_of_fmap. split.
  - intros (t & [= ->] & Ht). done.
  - intros Hc. by exists c.
Qed.

(** [unlock] never gets past its first part: a reader stumbles over
    [remove!], which Array does not have, and for everybody else
    [@rwheld], which is never assigned, differs from the caller. *)
Lemma unlock_held_spec c s rq wq rh w :
  shaped s rq wq rh w ->
  RWLock.unlock_held c s =
    (Raise (if bool_decide (c ∈ rh)
            then NoMethodError (VArray rh) "remove!" else RuntimeError), s).
Proof.
  intros H. rb_shaped s H.
  unfold RWLock.unlock_held. rb_go. rb_array. rb_go.
  rewrite include_thread. case_bool_decide; rb_go.
  - rb_array. rb_go. done.
  - unfold rb_ne, rb_eq. rewrite bool_decide_eq_false_2 by done. rb_go. done.
Qed.

Lemma unlock_spec c s rq wq rh w :
  shaped s rq wq rh w ->
  RWLock.unlock c s =
    (Raise (if bool_decide (c ∈ rh)
            then NoMethodError (VArray rh) "remove!" else RuntimeError), s).
Proof.
  intros H. destruct s as [iv cr0 a].
  assert (Hs : shaped (mkState iv true a) rq wq rh w) by exact H.
  unfold RWLock.unlock. rb_run.
  rewrite (unlock_held_spec c _ _ _ _ _ Hs). rb_run. done.
Qed.

(** The second part of [unlock] on its own fails as well: [@rwqueue] is
    never assigned, and [nil] has no method [empty?]. *)
Lemma unlock_release_spec c s rq wq rh w :
  shaped s rq wq rh w ->
  RWLock.unlock_release c s =
    (Raise (NoMethodError Qnil "empty?"),
     mkState (<["@wrheld" := Qnil]> (ivars s)) (critical s) (asleep s)).
Proof.
  intros H. rb_shaped s H.
  unfold RWLock.unlock_release. rb_go. done.
Qed.

(** ** The invariant of the lock *)

Lemma lock_inv_ivars s s' : ivars s = ivars s' -> lock_inv s -> lock_inv s'.
Proof.
  intros E (rq & wq & rh & w & H & Hx). exists rq, wq, rh, w.
  split; [|done]. unfold shaped in *. by rewrite <- E.
Qed.

Lemma lock_inv_new : lock_inv (mkState RWLock.new false ∅).
Proof. exists [], [], [], Qnil. split; [apply shaped_new | by left]. Qed.

Ltac shaped_solve :=
  match goal with
  | H : shaped _ _ _ _ _ |- shaped _ _ _ _ _ =>
      destruct H as (? & ? & ? & ? & ? & ?);
      unfold shaped; cbn [ivars]; ivars_simpl; done
  end.

Lemma preserves_rdlock_loop cr : preserves (RWLock.rdlock_loop cr).
Proof.
  intros c s (rq & wq & rh & w & H & Hx).
  rewrite (rdlock_loop_spec _ _ _ _ _ _ _ H).
  case_bool_decide as Hw; cbn [snd].
  - exists rq, wq, (rh ++ [c]), Qnil. split; [shaped_solve | by left].
  - exists (rq ++ [c]), wq, rh, w. split; [shaped_solve | done].
Qed.

Lemma preserves_wrlock_loop cr : preserves (RWLock.wrlock_loop cr).
Proof.
  intros c s (rq & wq & rh & w & H & Hx).
  rewrite (wrlock_loop_spec _ _ _ _ _ _ _ H).
  case_bool_decide as Hrh; cbn [andb snd].
  - destruct (bool_decide (w = VThread c) || bool_decide (w = Qnil)); cbn [snd].
    + exists rq, wq, rh, (VThread c). split; [shaped_solve | right; eauto].
    + exists rq, (wq ++ [c]), rh, w. split; [shaped_solve | done].
  - exists rq, (wq ++ [c]), rh, w. split; [shaped_solve | done].
Qed.

Lemma preserves_rdlock : preserves RWLock.rdlock.
Proof. intros c s H. apply (preserves_rdlock_loop (critical s) c s H). Qed.

Lemma preserves_wrlock : preserves RWLock.wrlock.
Proof. intros c s H. apply (preserves_wrlock_loop (critical s) c s H). Qed.

Lemma preserves_tryrdlock : preserves RWLock.tryrdlock.
Proof.
  intros c s (rq & wq & rh & w & H & Hx).
  rewrite (tryrdlock_spec _ _ _ _ _ _ H).
  case_bool_decide as Hw; cbn [snd].
  - exists rq, wq, (rh ++ [c]), Qnil. split; [shaped_solve | by left].
  - by exists rq, wq, rh, w.
Qed.

Lemma preserves_trywrlock : preserves RWLock.trywrlock.
Proof.
  intros c s (rq & wq & rh & w & H & Hx).
  rewrite (trywrlock_spec _ _ _ _ _ _ H).
  destruct (bool_decide (w = Qnil) && bool_decide (rh = [])) eqn:E; cbn [snd].
  - apply andb_true_iff in E as [_ E%bool_decide_eq_true].
    exists rq, wq, rh, (VThread c). split; [shaped_solve | right; eauto].
  - by exists rq, wq, rh, w.
Qed.

Lemma preserves_unlock : preserves RWLock.unlock.
Proof.
  intros c s (rq & wq & rh & w & H & Hx).
  rewrite (unlock_spec _ _ _ _ _ _ H). cbn [snd]. by exists rq, wq, rh, w.
Qed.

Lemma preserves_ret {A} (a : A) : preserves (ret a).
Proof. by intros c s H. Qed.

Lemma preserves_bind {A B} (m : M A) (f : A -> M B) :
  preserves m -> (forall a, preserves (f a)) -> preserves (bind m f).
Proof.
  intros Hm Hf c s H. specialize (Hm c s H). unfold bind.
  destruct (m c s) as [[a|e|k] s']; cbn [snd] in *; [by apply Hf | done | done].
Qed.

Lemma preserves_in_frame {A} f (m : M A) : preserves m -> preserves (in_frame f m).
Proof.
  intros Hm c s H. specialize (Hm c s H). unfold in_frame.
  by destruct (m c s) as [[a|e|k] s'].
Qed.

Lemma preserves_ensure {A} (m : M A) fin :
  preserves m -> preserves fin -> preserves (ensure m fin).
Proof.
  intros Hm Hf c s H. specialize (Hm c s H). unfold ensure.
  destruct (m c s) as [[a|e|k] s']; cbn [snd] in *; [| |done];
    specialize (Hf c s' Hm); by destruct (fin c s') as [[?|?|?] ?].
Qed.

Lemma preserves_critical_set b : preserves (Thread_critical_set b).
Proof. intros c s H. by apply (lock_inv_ivars s). Qed.

Lemma preserves_continue f m : preserves m -> preserves (RWLock.continue f m).
Proof.
  intros Hm. destruct f; cbn [RWLock.continue].
  - apply preserves_bind; [done | intros _; apply preserves_rdlock_loop].
  - apply preserves_bind; [done | intros _; apply preserves_wrlock_loop].
  - apply preserves_bind; [done | intros _; apply preserves_rdlock].
  - apply preserves_bind; [done | intros _; apply preserves_wrlock].
  - apply preserves_in_frame, preserves_ensure; [|apply preserves_critical_set].
    apply preserves_bind; [done | intros _; apply preserves_ret].
Qed.

Lemma preserves_resume k : preserves (RWLock.resume k).
Proof.
  unfold RWLock.resume. generalize (ret (S:=rstate) Qnil) (preserves_ret (A:=VALUE) Qnil).
  induction k as [|f k IH]; intros m Hm; cbn [fold_left]; [done|].
  apply IH, preserves_continue, Hm.
Qed.

Lemma preserves_entry meth m :
  meth ∈ Sched.entry_points -> RWLock.method meth = Some m -> preserves m.
Proof.
  unfold Sched.entry_points. rewrite !elem_of_cons, elem_of_nil.
  intros [->|[->|[->|[->|[->|[]]]]]]; intros [= <-].
  - apply preserves_rdlock.
  - apply preserves_tryrdlock.
  - apply preserves_wrlock.
  - apply preserves_trywrlock.
  - apply preserves_unlock.
Qed.

Lemma settle_lock t r w : Sched.lock (Sched.settle t r w) = snd r.
Proof. by destruct r as [[?|?|?] ?]. Qed.

Lemma step_lock_inv sys sys' :
  Sched.step sys sys' -> lock_inv (Sched.lock sys) -> lock_inv (Sched.lock sys').
Proof.
  intros Hstep Hinv. destruct Hstep; rewrite ?settle_lock; cbn [Sched.lock].
  - by eapply preserves_entry.
  - by apply preserves_resume.
  - done.
  - done.
  - by apply (lock_inv_ivars (Sched.lock sys)).
  - by apply (lock_inv_ivars (Sched.lock sys)).
Qed.

Lemma reachable_lock_inv sys : Sched.reachable sys -> lock_inv (Sched.lock sys).
Proof.
  induction 1 as [|sys sys' _ IH Hstep]; [apply lock_inv_new|].
  by apply (step_lock_inv sys).
Qed.

(** ** The lock under its users *)

Lemma readers_shaped s rq wq rh w : shaped s rq wq rh w -> RWLock.readers s = VArray rh.
Proof. intros (_ & _ & H & _). unfold RWLock.readers. by rewrite H. Qed.

Lemma writer_shaped s rq wq rh w : shaped s rq wq rh w -> RWLock.writer s = w.
Proof. intros (_ & _ & _ & H & _). unfold RWLock.writer. by rewrite H. Qed.

Lemma call_rwlock_unlock : thread_ruby.call_rwlock "unlock" = RWLock.unlock.
Proof. reflexivity. Qed.

(** In every state the lock can reach, [unlock] raises for every
    caller and leaves the lock as it was. *)
Lemma rwunlock_always_raises sys c :
  Sched.reachable sys ->
  exists e, thread_ruby.rwunlock c (Sched.lock sys) = (Raise e, Sched.lock sys).
Proof.
  intros (rq & wq & rh & w & H & _)%reachable_lock_inv.
  unfold thread_ruby.rwunlock. rewrite call_rwlock_unlock. unfold bind.
  rewrite (unlock_spec _ _ _ _ _ _ H). eauto.
Qed.

(** C2: in every state that any sequence of lock operations by any
    number of threads can reach, the lock is not read-held and
    write-held at once; while readers hold it a writer's [wrlock]
    stops the caller and [trywrlock] fails, while a writer holds it
    [rdlock] stops the caller and [tryrdlock] fails, and while no
    writer holds it [rdlock] adds the caller to the readers already
    there. *)
Theorem rwlock_never_read_and_write_held (sys : Sched.system) :
  Sched.reachable sys ->
  let s := Sched.lock sys in
  ~ (Sched.read_held s /\ Sched.write_held s)
  /\ (Sched.read_held s -> forall c,
        (exists s', RWLock.wrlock c s = (Stop [InWrlock (critical s)], s')
                    /\ RWLock.writer s' = Qnil
                    /\ RWLock.readers s' = RWLock.readers s
                    /\ c ∈ asleep s')
        /\ RWLock.trywrlock c s = (Ret Qfalse, s))
  /\ (Sched.write_held s -> forall c,
        (exists s', RWLock.rdlock c s = (Stop [InRdlock (critical s)], s')
                    /\ RWLock.readers s' = VArray []
                    /\ RWLock.writer s' = RWLock.writer s
                    /\ c ∈ asleep s')
        /\ RWLock.tryrdlock c s = (Ret Qfalse, s))
  /\ (~ Sched.write_held s -> forall c,
        exists rh s', RWLock.readers s = VArray rh
                   /\ RWLock.rdlock c s = (Ret VSelf, s')
                   /\ RWLock.readers s' = VArray (rh ++ [c])
                   /\ RWLock.writer s' = Qnil).
Proof.
  intros (rq & wq & rh & w & H & Hx)%reachable_lock_inv s.
  fold s in H.
  pose proof (readers_shaped _ _ _ _ _ H) as Hr.
  pose proof (writer_shaped _ _ _ _ _ H) as Hw.
  unfold Sched.read_held, Sched.write_held. rewrite Hr, Hw.
  split; [|split; [|split]].
  - intros [(t & l & [= ->]) (t' & ->)]. by destruct Hx as [|[_ ?]].
  - intros (t & l & [= ->]) c.
    destruct Hx as [->|[_ ?]]; [|done]. split.
    + rewrite (wrlock_spec _ _ _ _ _ _ H), (wrlock_loop_spec _ _ _ _ _ _ _ H).
      rewrite bool_decide_eq_false_2 by done. cbn [andb].
      eexists; split; [done|].
      unfold RWLock.writer, RWLock.readers. cbn [ivars asleep].
      destruct H as (? & ? & Hrh' & Hw' & _). ivars_simpl.
      rewrite Hw', Hrh'. repeat split. set_solver.
    + rewrite (trywrlock_spec _ _ _ _ _ _ H).
      by rewrite (bool_decide_eq_false_2 (_ :: _ = [])), andb_false_r.
  - intros (t & ->) c. destruct Hx as [|[_ ->]]; [done|]. split.
    + rewrite (rdlock_spec _ _ _ _ _ _ H), (rdlock_loop_spec _ _ _ _ _ _ _ H).
      rewrite bool_decide_eq_false_2 by done.
      eexists; split; [done|].
      unfold RWLock.writer, RWLock.readers. cbn [ivars asleep].
      destruct H as (? & ? & Hrh' & Hw' & _). ivars_simpl.
      rewrite Hw', Hrh'. repeat split. set_solver.
    + rewrite (tryrdlock_spec _ _ _ _ _ _ H).
      by rewrite bool_decide_eq_false_2.
  - intros Hnw c. destruct Hx as [->|[[t ->] _]]; [|by destruct Hnw; eauto].
    exists rh. eexists. split; [done|].
    rewrite (rdlock_spec _ _ _ _ _ _ H), (rdlock_loop_spec _ _ _ _ _ _ _ H).
    rewrite bool_decide_eq_true_2 by done. split; [done|].
    unfold RWLock.writer, RWLock.readers. cbn [ivars]. by ivars_simpl.
Qed.

Lemma reachable_two_readers : Sched.reachable Scenario.sys_two_readers.
Proof.
  eapply Sched.reachable_step.
  - eapply Sched.reachable_step; [apply Sched.reachable_boot|].
    apply (Sched.step_call Sched.boot 1 "rdlock");
      [reflexivity | vm_compute; set_solver
      | unfold Sched.entry_points; set_solver | reflexivity].
  - apply (Sched.step_call Scenario.sys_one_reader 2 "rdlock");
      [reflexivity | vm_compute; set_solver
      | unfold Sched.entry_points; set_solver | reflexivity].
Qed.

Lemma rwlock_never_read_and_write_held_witness :
  Sched.reachable Scenario.sys_two_readers
  /\ RWLock.readers (Sched.lock Scenario.sys_two_readers) = VArray [1; 2]
  /\ ~ (Sched.read_held (Sched.lock Scenario.sys_two_readers)
        /\ Sched.write_held (Sched.lock Scenario.sys_two_readers)).
Proof.
  split; [apply reachable_two_readers|]. split; [reflexivity|].
  exact (proj1 (rwlock_never_read_and_write_held Scenario.sys_two_readers
                  reachable_two_readers)).
Defined.

(** C4: when the calling thread holds the write lock, a second
    [wrlock] by that thread returns at once, through the method and
    through the backend's [wlock], and leaves the lock as it was. *)
Theorem wrlock_reentrant (sys : Sched.system) (c : tid) :
  Sched.reachable sys ->
  RWLock.writer (Sched.lock sys) = VThread c ->
  RWLock.wrlock c (Sched.lock sys) = (Ret VSelf, Sched.lock sys)
  /\ thread_ruby.wlock c (Sched.lock sys) = (Ret tt, Sched.lock sys).
Proof.
  intros (rq & wq & rh & w & H & Hx)%reachable_lock_inv Hc.
  rewrite (writer_shaped _ _ _ _ _ H) in Hc. subst w.
  destruct Hx as [|[_ ->]]; [done|].
  assert (RWLock.wrlock c (Sched.lock sys) = (Ret VSelf, Sched.lock sys)) as E.
  { rewrite (wrlock_spec _ _ _ _ _ _ H), (wrlock_loop_spec _ _ _ _ _ _ _ H).
    rewrite !bool_decide_eq_true_2 by done. cbn [andb orb].
    destruct H as (_ & _ & _ & Hw & _).
    rewrite (insert_id _ _ _ Hw). by rewrite rstate_eta. }
  split; [done|].
  unfold thread_ruby.wlock, bind.
  change (thread_ruby.call_rwlock "wrlock") with RWLock.wrlock. by rewrite E.
Qed.

Lemma wrlock_reentrant_witness :
  Sched.reachable Scenario.sys_write_locked
  /\ RWLock.writer (Sched.lock Scenario.sys_write_locked) = VThread 1
  /\ thread_ruby.wlock 1 (Sched.lock Scenario.sys_write_locked)
     = (Ret tt, Sched.lock Scenario.sys_write_locked).
Proof.
  assert (Sched.reachable Scenario.sys_write_locked) as R.
  { eapply Sched.reachable_step; [apply Sched.reachable_boot|].
    apply (Sched.step_call Sched.boot 1 "wrlock");
      [reflexivity | vm_compute; set_solver
      | unfold Sched.entry_points; set_solver | reflexivity]. }
  split; [exact R|]. split; [reflexivity|].
  exact (proj2 (wrlock_reentrant Scenario.sys_write_locked 1 R eq_refl)).
Defined.

(** C1: thread 1 holds the write lock of a fresh lock and calls the
    backend's unlock: the call raises RuntimeError and thread 1 still
    holds the write lock. *)
Theorem rwunlock_write_holder_raises :
  RWLock.writer Scenario.write_locked = VThread 1
  /\ RWLock.readers Scenario.write_locked = VArray []
  /\ thread_ruby.rwunlock 1 Scenario.write_locked
     = (Raise RuntimeError, Scenario.write_locked).
Proof. repeat split; vm_compute; reflexivity. Qed.

(** C3: thread 1 holds the write lock of a fresh lock and calls the
    backend's read lock: the call does not return, thread 1 is put on
    the read queue and stopped, and it is not among the readers. *)
Theorem rlock_write_holder_blocks :
  RWLock.writer Scenario.write_locked = VThread 1
  /\ fst (thread_ruby.rlock 1 Scenario.write_locked) = Stop [InRdlock false]
  /\ RWLock.rdqueue (snd (thread_ruby.rlock 1 Scenario.write_locked)) = VArray [1]
  /\ RWLock.readers (snd (thread_ruby.rlock 1 Scenario.write_locked)) = VArray []
  /\ asleep (snd (thread_ruby.rlock 1 Scenario.write_locked)) = {[1]}.
Proof. repeat split; vm_compute; reflexivity. Qed.

(** C5: thread 1 holds the write lock, thread 2 waits in the write
    queue and no reader holds the lock; when thread 1 calls the
    backend's unlock the call raises, the lock is unchanged and thread
    2 is still asleep in the queue.  The release part of [unlock], run
    on its own in that state, raises as well and wakes nobody. *)
Theorem rwunlock_wakes_nobody :
  RWLock.writer Scenario.writer_waiting = VThread 1
  /\ RWLock.readers Scenario.writer_waiting = VArray []
  /\ RWLock.wrqueue Scenario.writer_waiting = VArray [2]
  /\ asleep Scenario.writer_waiting = {[2]}
  /\ thread_ruby.rwunlock 1 Scenario.writer_waiting
     = (Raise RuntimeError, Scenario.writer_waiting)
  /\ fst (RWLock.unlock_release 1 Scenario.writer_waiting)
     = Raise (NoMethodError Qnil "empty?")
  /\ asleep (snd (RWLock.unlock_release 1 Scenario.writer_waiting)) = {[2]}
  /\ RWLock.wrqueue (snd (RWLock.unlock_release 1 Scenario.writer_waiting))
     = VArray [2].
Proof. repeat split; vm_compute; reflexivity. Qed.

(** C10: the table's read-release and write-release entries are the
    same function, [rwunlock], which calls the lock's [unlock]: on
    every lock state and for every caller the two entries compute the
    same outcome and the same state, namely those of [unlock]. *)
Theorem runlock_wunlock_same :
  ixp.runlock thread_ruby.ixp_rthread
  = ixp.wunlock thread_ruby.ixp_rthread
  /\ ixp.runlock thread_ruby.ixp_rthread = thread_ruby.rwunlock
  /\ forall (c : tid) (s : rstate),
       ixp.runlock thread_ruby.ixp_rthread c s
       = ixp.wunlock thread_ruby.ixp_rthread c s
       /\ snd (ixp.runlock thread_ruby.ixp_rthread c s)
          = snd (RWLock.unlock c s)
       /\ fst (ixp.wunlock thread_ruby.ixp_rthread c s)
          = match fst (RWLock.unlock c s) with
            | Ret _ => Ret tt
            | Raise e => Raise e
            | Stop k => Stop k
            end.
Proof.
  split; [reflexivity|]. split; [reflexivity|]. intros c s.
  cbn [ixp.runlock ixp.wunlock thread_ruby.ixp_rthread].
  unfold thread_ruby.rwunlock, bind. rewrite call_rwlock_unlock.
  by destruct (RWLock.unlock c s) as [[v|e|k] s'].
Qed.

(** ** Rendez *)

(** C9: whatever the interpreter's [signal] and [broadcast] do and
    whatever state the waiters are in, a status that [rwake] or
    [rwakeall] returns is 0, and they return it whenever the
    interpreter's method returns. *)
Theorem rwake_rwakeall_status {W : Type}
    (rb_funcall : VALUE -> string -> list VALUE -> prog W VALUE)
    (r : thread_ruby.IxpRendez) (c : tid) (w : W) :
  (forall z w', thread_ruby.rwake rb_funcall r c w = (Ret z, w') -> z = 0%Z)
  /\ (forall v w', rb_funcall (thread_ruby.r_aux r) "signal" [] c w = (Ret v, w') ->
                   thread_ruby.rwake rb_funcall r c w = (Ret 0%Z, w'))
  /\ (forall z w', thread_ruby.rwakeall rb_funcall r c w = (Ret z, w') -> z = 0%Z)
  /\ (forall v w', rb_funcall (thread_ruby.r_aux r) "broadcast" [] c w = (Ret v, w') ->
                   thread_ruby.rwakeall rb_funcall r c w = (Ret 0%Z, w')).
Proof.
  unfold thread_ruby.rwake, thread_ruby.rwakeall, bind, ret.
  repeat split.
  - intros z w'. destruct (rb_funcall _ "signal" _ c w) as [[?|?|?] ?]; congruence.
  - intros v w' ->. done.
  - intros z w'. destruct (rb_funcall _ "broadcast" _ c w) as [[?|?|?] ?]; congruence.
  - intros v w' ->. done.
Qed.

(** With the condition variable of the spec, for every queue of
    waiters: both return 0; [rwake] removes one waiter if there is
    one, [rwakeall] all of them. *)
Lemma rwake_condvar r c (waiters : list tid) :
  thread_ruby.rwake thread_ruby.condvar_funcall r c waiters = (Ret 0%Z, tail waiters)
  /\ thread_ruby.rwakeall thread_ruby.condvar_funcall r c waiters = (Ret 0%Z, []).
Proof. split; reflexivity. Qed.

(** ** Yielding IO *)

Lemma to_signed_id bits x :
  (0 < bits)%Z -> (- 2 ^ (bits - 1) <= x < 2 ^ (bits - 1))%Z ->
  thread_ruby.to_signed bits x = x.
Proof.
  intros Hb Hx. unfold thread_ruby.to_signed.
  replace (2 ^ bits)%Z with (2 * 2 ^ (bits - 1))%Z.
  - rewrite Z.mod_small; lia.
  - rewrite <- Z.pow_succ_r by lia. f_equal. lia.
Qed.

Lemma pow2_mono a b : (0 <= a <= b)%Z -> (2 ^ a <= 2 ^ b)%Z.
Proof. intros H. apply Z.pow_le_mono_r; lia. Qed.

Section YieldingIO_facts.
Context {OS : Type}.
Variable errno : OS -> Z.
Variable EINTR : Z.
Variable transfer : Z -> Z -> OS -> Z * OS.
Variable wait : Z -> OS -> OS.
Variable rb_thread_schedule : OS -> OS.
Variable target : thread_ruby.abi.
Hypothesis int_width : (0 < thread_ruby.int_bits target)%Z.
Hypothesis ssize_width :
    (thread_ruby.int_bits target <= thread_ruby.ssize_bits target)%Z.

  (** A result that fits [int] comes back as it is, and the scheduler
      is entered once more exactly when the call failed with EINTR. *)
Lemma _read_in_range fd size st :
    let r := fst (transfer fd size (wait fd st)) in
    let st2 := snd (transfer fd size (wait fd st)) in
    (- 2 ^ (thread_ruby.int_bits target - 1) <= r
     < 2 ^ (thread_ruby.int_bits target - 1))%Z ->
    thread_ruby._read errno EINTR transfer wait rb_thread_schedule target fd size st
    = (r, if (r <? 0)%Z && (errno st2 =? EINTR)%Z
          then rb_thread_schedule st2 else st2).
  Proof.
    intros r st2 Hr. unfold thread_ruby._read. subst r st2.
    destruct (transfer fd size (wait fd st)) as [r st2]. cbn [fst snd] in *.
    rewrite (to_signed_id _ r) by done.
    rewrite to_signed_id; [done | lia |].
    pose proof (pow2_mono (thread_ruby.int_bits target - 1)
                  (thread_ruby.ssize_bits target - 1)). lia.
  Qed.

Lemma _write_in_range fd size st :
    let r := fst (transfer fd size (wait fd st)) in
    let st2 := snd (transfer fd size (wait fd st)) in
    (- 2 ^ (thread_ruby.int_bits target - 1) <= r
     < 2 ^ (thread_ruby.int_bits target - 1))%Z ->
    thread_ruby._write errno EINTR transfer wait rb_thread_schedule target fd size st
    = (r, if (r <? 0)%Z && (errno st2 =? EINTR)%Z
          then rb_thread_schedule st2 else st2).
  Proof.
    intros r st2 Hr. unfold thread_ruby._write. subst r st2.
    destruct (transfer fd size (wait fd st)) as [r st2]. cbn [fst snd] in *.
    rewrite (to_signed_id _ r) by done.
    rewrite to_signed_id; [done | lia |].
    pose proof (pow2_mono (thread_ruby.int_bits target - 1)
                  (thread_ruby.ssize_bits target - 1)). lia.
  Qed.
End YieldingIO_facts.

(** C7: on a target with a 32-bit [int] and a 64-bit [ssize_t], a read
    (or write) of 2^31 bytes that the system call carries out in full
    is reported as -2^31: the result passes through the [int] local
    [n].  An interrupted call returns -1, leaves EINTR in [errno] and
    enters the scheduler once more; another error returns -1 without
    that. *)
Theorem read_write_large_transfer :
  let EINTR := 4%Z in
  let run_read := thread_ruby._read thread_ruby.os_errno EINTR
                    thread_ruby.os_transfer thread_ruby.os_wait
                    thread_ruby.os_schedule thread_ruby.LP64 in
  let run_write := thread_ruby._write thread_ruby.os_errno EINTR
                    thread_ruby.os_transfer thread_ruby.os_wait
                    thread_ruby.os_schedule thread_ruby.LP64 in
  let big := thread_ruby.mkOs 0 0 (2 ^ 31, 0)%Z in
  let intr := thread_ruby.mkOs 0 0 (-1, EINTR)%Z in
  let fail := thread_ruby.mkOs 0 0 (-1, 5)%Z in
  fst (thread_ruby.os_transfer 0 (2 ^ 31) (thread_ruby.os_wait 0 big)) = (2 ^ 31)%Z
  /\ run_read 0%Z (2 ^ 31)%Z big = ((- 2 ^ 31)%Z, thread_ruby.mkOs 0 1 (2 ^ 31, 0)%Z)
  /\ run_write 0%Z (2 ^ 31)%Z big = ((- 2 ^ 31)%Z, thread_ruby.mkOs 0 1 (2 ^ 31, 0)%Z)
  /\ run_read 0%Z 16%Z intr = ((-1)%Z, thread_ruby.mkOs EINTR 2 (-1, EINTR)%Z)
  /\ run_read 0%Z 16%Z fail = ((-1)%Z, thread_ruby.mkOs 5 1 (-1, 5)%Z).
Proof. repeat split. Qed.

(** ** The error buffer *)

Lemma rb_intern_nonzero name : (thread_ruby.rb_intern name =? 0)%Z = false.
Proof. reflexivity. Qed.

Lemma errbuf_inv_interp0 n : thread_ruby.errbuf_inv n thread_ruby.interp0.
Proof. split; [by left | |]; intros *; cbn; by rewrite lookup_empty. Qed.

Ltac ib_run :=
  cbv beta iota zeta delta
    [bind ret raise thread_ruby.errbuf thread_ruby.rb_thread_current
     thread_ruby.rb_thread_local_aref thread_ruby.rb_thread_local_aset
     thread_ruby.rb_str_new thread_ruby.Check_Type_T_STRING
     thread_ruby.RSTRING_ptr thread_ruby.key thread_ruby.locals
     thread_ruby.str_heap from_option id].

Lemma errbuf_hit n t k loc heap p :
  k = 0%Z \/ k = thread_ruby.errbuf_key ->
  loc !! (t, thread_ruby.errbuf_key) = Some (VString p) ->
  thread_ruby.errbuf n t (thread_ruby.mkInterp k loc heap)
  = (Ret p, thread_ruby.mkInterp thread_ruby.errbuf_key loc heap).
Proof.
  intros [->| ->] Hl; ib_run;
    [change (0 =? 0)%Z with true
    |change (thread_ruby.errbuf_key =? 0)%Z with false];
    ib_run; fold thread_ruby.errbuf_key; rewrite Hl; reflexivity.
Qed.

Lemma errbuf_miss n t k loc heap :
  k = 0%Z \/ k = thread_ruby.errbuf_key ->
  loc !! (t, thread_ruby.errbuf_key) = None ->
  thread_ruby.errbuf n t (thread_ruby.mkInterp k loc heap)
  = (Ret (fresh (dom heap)),
     thread_ruby.mkInterp thread_ruby.errbuf_key
       (<[(t, thread_ruby.errbuf_key) := VString (fresh (dom heap))]> loc)
       (<[fresh (dom heap) := n]> heap)).
Proof.
  intros [->| ->] Hl; ib_run;
    [change (0 =? 0)%Z with true
    |change (thread_ruby.errbuf_key =? 0)%Z with false];
    ib_run; fold thread_ruby.errbuf_key; rewrite Hl; reflexivity.
Qed.

(** One call of [errbuf]: it returns the buffer the caller keeps from
    then on; a caller that had one gets that one and nothing is
    allocated, a caller that had none gets a new String at an address
    no other String has. *)
Lemma errbuf_step n t st :
  thread_ruby.errbuf_inv n st ->
  exists p st',
    thread_ruby.errbuf n t st = (Ret p, st')
    /\ thread_ruby.errbuf_inv n st'
    /\ thread_ruby.locals st' !! (t, thread_ruby.errbuf_key) = Some (VString p)
    /\ thread_ruby.locals st ⊆ thread_ruby.locals st'
    /\ match thread_ruby.locals st !! (t, thread_ruby.errbuf_key) with
       | Some _ =>
           thread_ruby.locals st' = thread_ruby.locals st
           /\ thread_ruby.str_heap st' = thread_ruby.str_heap st
       | None =>
           (p ∉ dom (thread_ruby.str_heap st))
           /\ thread_ruby.str_heap st' = <[p := n]> (thread_ruby.str_heap st)
           /\ thread_ruby.locals st'
              = <[(t, thread_ruby.errbuf_key) := VString p]> (thread_ruby.locals st)
       end.
Proof.
  intros [Hkey Hbuf Hown]. destruct st as [k loc heap].
  cbn [thread_ruby.key thread_ruby.locals thread_ruby.str_heap] in *.
  destruct (loc !! (t, thread_ruby.errbuf_key)) as [v|] eqn:Hl.
  - destruct (Hbuf t v Hl) as (p & -> & Hp).
    rewrite (errbuf_hit _ _ _ _ _ _ Hkey Hl). exists p. eexists. split; [done|].
    cbn [thread_ruby.key thread_ruby.locals thread_ruby.str_heap].
    repeat split; try done. by right.
  - rewrite (errbuf_miss _ _ _ _ _ Hkey Hl). set (p := fresh (dom heap)).
    assert (p ∉ dom heap) as Hfresh by apply is_fresh.
    exists p. eexists. split; [done|].
    cbn [thread_ruby.key thread_ruby.locals thread_ruby.str_heap].
    split; [|split; [by rewrite lookup_insert_eq|split; [|done]]].
    + split; cbn [thread_ruby.key thread_ruby.locals thread_ruby.str_heap].
      * by right.
      * intros t' v. destruct (decide (t' = t)) as [->|Hne].
        -- rewrite lookup_insert_eq. intros [= <-]. exists p.
           by rewrite lookup_insert_eq.
        -- rewrite lookup_insert_ne by congruence. intros Hv.
           destruct (Hbuf t' v Hv) as (q & -> & Hq). exists q. split; [done|].
           rewrite lookup_insert_ne; [done|].
           intros <-. apply Hfresh, elem_of_dom. eauto.
      * intros t1 t2 q.
        destruct (decide (t1 = t)) as [->|Hne1];
          destruct (decide (t2 = t)) as [->|Hne2]; [done| | |].
        -- rewrite lookup_insert_eq, lookup_insert_ne by congruence.
           intros [= <-] Hq. destruct (Hbuf t2 _ Hq) as (q & [= <-] & Hq').
           destruct Hfresh. apply elem_of_dom. eauto.
        -- rewrite lookup_insert_eq, lookup_insert_ne by congruence.
           intros Hq [= <-]. destruct (Hbuf t1 _ Hq) as (q & [= <-] & Hq').
           destruct Hfresh. apply elem_of_dom. eauto.
        -- rewrite !lookup_insert_ne by congruence. apply Hown.
    + by apply insert_subseteq.
Qed.

Lemma errbuf_calls_spec n calls st :
  thread_ruby.errbuf_inv n st ->
  exists rs st',
    thread_ruby.errbuf_calls n calls st = (rs, st')
    /\ thread_ruby.errbuf_inv n st'
    /\ thread_ruby.locals st ⊆ thread_ruby.locals st'
    /\ Forall2 (fun t r => exists p,
          r = Ret p
          /\ thread_ruby.locals st' !! (t, thread_ruby.errbuf_key) = Some (VString p))
        calls rs
    /\ (forall t, is_Some (thread_ruby.locals st' !! (t, thread_ruby.errbuf_key)) ->
         is_Some (thread_ruby.locals st !! (t, thread_ruby.errbuf_key)) \/ t ∈ calls)
    /\ (forall p, p ∈ dom (thread_ruby.str_heap st') ->
         p ∈ dom (thread_ruby.str_heap st) \/ Ret p ∈ rs).
Proof.
  revert st. induction calls as [|t calls IH]; intros st Hinv.
  - exists [], st. cbn [thread_ruby.errbuf_calls].
    split; [done|]. split; [done|]. split; [done|].
    split; [constructor|]. split; eauto.
  - destruct (errbuf_step n t st Hinv) as (p & st1 & E & Hinv1 & Hp & Hsub & Hcase).
    destruct (IH st1 Hinv1) as (rs & st' & E' & Hinv' & Hsub' & Hall & Hloc & Hdom).
    exists (Ret p :: rs), st'. cbn [thread_ruby.errbuf_calls]. rewrite E, E'.
    split; [done|]. split; [done|]. split; [by etrans|]. split; [|split].
    + constructor; [|done]. exists p. split; [done|].
      by eapply lookup_weaken.
    + intros t' Ht'. destruct (Hloc t' Ht') as [H1|H1]; [|right; by right].
      destruct (thread_ruby.locals st !! (t, thread_ruby.errbuf_key)) eqn:Hl.
      * destruct Hcase as [Hc _]. rewrite Hc in H1. by left.
      * destruct Hcase as (_ & _ & Hl'). rewrite Hl' in H1.
        destruct (decide (t' = t)) as [->|Hne]; [right; by left|].
        rewrite lookup_insert_ne in H1 by congruence. by left.
    + intros q Hq. destruct (Hdom q Hq) as [H1|H1]; [|right; by right].
      destruct (thread_ruby.locals st !! (t, thread_ruby.errbuf_key)) eqn:Hl.
      * destruct Hcase as [_ Hc]. rewrite Hc in H1. by left.
      * destruct Hcase as (_ & Hh & _). rewrite Hh, dom_insert_L in H1.
        apply elem_of_union in H1 as [->%elem_of_singleton|H1]; [right; by left|by left].
Qed.

(** C8: take any sequence of calls of [errbuf] by any threads, from an
    interpreter in which no thread has a buffer.  Every call returns
    the address of a String of [IXP_ERRMAX] bytes which the calling
    thread keeps; two calls return the same address exactly when the
    same thread made them; and buffers only come into being through a
    call: the threads that have one are those that called, and every
    String there is was returned to one of them. *)
Theorem errbuf_one_buffer_per_thread (IXP_ERRMAX : nat) (calls : list tid) :
  let rs := fst (thread_ruby.errbuf_calls IXP_ERRMAX calls thread_ruby.interp0) in
  let st := snd (thread_ruby.errbuf_calls IXP_ERRMAX calls thread_ruby.interp0) in
  Forall2 (fun t r => exists p,
      r = Ret p
      /\ thread_ruby.str_heap st !! p = Some IXP_ERRMAX
      /\ thread_ruby.locals st !! (t, thread_ruby.errbuf_key) = Some (VString p))
    calls rs
  /\ (forall i j ti tj pi pj,
        calls !! i = Some ti -> calls !! j = Some tj ->
        rs !! i = Some (Ret pi) -> rs !! j = Some (Ret pj) ->
        (ti = tj <-> pi = pj))
  /\ (forall t,
        is_Some (thread_ruby.locals st !! (t, thread_ruby.errbuf_key)) -> t ∈ calls)
  /\ (forall p, p ∈ dom (thread_ruby.str_heap st) -> Ret p ∈ rs).
Proof.
  intros rs st. subst rs st.
  destruct (errbuf_calls_spec IXP_ERRMAX calls _ (errbuf_inv_interp0 IXP_ERRMAX))
    as (rs & st & -> & Hinv & _ & Hall & Hloc & Hdom).
  cbn [fst snd]. split; [|split; [|split]].
  - eapply Forall2_impl; [exact Hall|]. intros t r (p & -> & Hp).
    exists p. split; [done|]. split; [|done].
    destruct (thread_ruby.inv_buf _ _ Hinv t _ Hp) as (q & [= <-] & Hq). done.
  - intros i j ti tj pi pj Hi Hj Hri Hrj.
    destruct (Forall2_lookup_lr _ _ _ _ _ _ Hall Hi Hri) as (pi' & [= <-] & Hpi).
    destruct (Forall2_lookup_lr _ _ _ _ _ _ Hall Hj Hrj) as (pj' & [= <-] & Hpj).
    split.
    + intros ->. congruence.
    + intros ->. by apply (thread_ruby.inv_own _ _ Hinv ti tj pj).
  - intros t Ht. destruct (Hloc t Ht) as [[v Hv]|]; [|done].
    cbn in Hv. by rewrite lookup_empty in Hv.
  - intros p Hp. destruct (Hdom p Hp) as [H|]; [|done].
    cbn in H. by rewrite dom_empty_L in H.
Qed.

Example errbuf_three_threads :
  fst (thread_ruby.errbuf_calls 128 [1; 2; 1; 3; 2] thread_ruby.interp0)
  = [Ret 0; Ret 1; Ret 0; Ret 2; Ret 1].
Proof. vm_compute. reflexivity. Qed.

(** * Further properties of the lock *)

Import Progress.

Lemma rdqueue_shaped s rq wq rh w : shaped s rq wq rh w -> RWLock.rdqueue s = VArray rq.
Proof. intros (H & _). unfold RWLock.rdqueue. by rewrite H. Qed.

Lemma wrqueue_shaped s rq wq rh w : shaped s rq wq rh w -> RWLock.wrqueue s = VArray wq.
Proof. intros (_ & H & _). unfold RWLock.wrqueue. by rewrite H. Qed.

Lemma lock_inv_shaped s :
  lock_inv s ->
  exists rq wq rh w,
    shaped s rq wq rh w
    /\ (w = Qnil \/ (exists t, w = VThread t) /\ rh = [])
    /\ RWLock.rdqueue s = VArray rq /\ RWLock.wrqueue s = VArray wq
    /\ RWLock.readers s = VArray rh /\ RWLock.writer s = w.
Proof.
  intros (rq & wq & rh & w & H & Hx). exists rq, wq, rh, w.
  split; [done|]. split; [done|].
  rewrite (rdqueue_shaped _ _ _ _ _ H), (wrqueue_shaped _ _ _ _ _ H),
    (readers_shaped _ _ _ _ _ H), (writer_shaped _ _ _ _ _ H). done.
Qed.

Lemma reachable_sys_write_locked : Sched.reachable Scenario.sys_write_locked.
Proof.
  eapply Sched.reachable_step; [apply Sched.reachable_boot|].
  apply (Sched.step_call Sched.boot 1 "wrlock");
    [reflexivity | vm_compute; set_solver
    | unfold Sched.entry_points; set_solver | reflexivity].
Qed.

Lemma reachable_sys_reader_queued : Sched.reachable Scenario2.sys_reader_queued.
Proof.
  eapply Sched.reachable_step; [apply reachable_sys_write_locked|].
  apply (Sched.step_call Scenario.sys_write_locked 2 "rdlock");
    [reflexivity | vm_compute; set_solver
    | unfold Sched.entry_points; set_solver | reflexivity].
Qed.

Lemma reachable_sys_both_queued : Sched.reachable Scenario2.sys_both_queued.
Proof.
  eapply Sched.reachable_step; [apply reachable_sys_reader_queued|].
  apply (Sched.step_call Scenario2.sys_reader_queued 3 "wrlock");
    [reflexivity | vm_compute; set_solver
    | unfold Sched.entry_points; set_solver | reflexivity].
Qed.


(** ** The lock over time *)

Lemma extended_refl v : extended v v.
Proof. intros l ->. exists []. by rewrite app_nil_r. Qed.

Lemma extended_trans v1 v2 v3 : extended v1 v2 -> extended v2 v3 -> extended v1 v3.
Proof.
  intros H1 H2 l Hl. destruct (H1 l Hl) as (x & Hx).
  destruct (H2 _ Hx) as (y & Hy). exists (x ++ y). by rewrite app_assoc.
Qed.

Lemma grows_refl s : grows s s.
Proof. repeat split; auto using extended_refl. Qed.

Lemma grows_trans s1 s2 s3 : grows s1 s2 -> grows s2 s3 -> grows s1 s3.
Proof.
  intros (W1 & A1 & B1 & C1) (W2 & A2 & B2 & C2).
  repeat split; eauto using extended_trans.
Qed.

Lemma grows_ivars s s' : ivars s = ivars s' -> grows s s'.
Proof.
  intros E. unfold grows, RWLock.writer, RWLock.readers, RWLock.rdqueue,
    RWLock.wrqueue. rewrite E. repeat split; auto using extended_refl.
Qed.

Lemma grows_shaped s s' rq wq rh w rq' wq' rh' w' :
  shaped s rq wq rh w -> shaped s' (rq ++ rq') (wq ++ wq') (rh ++ rh') w' ->
  (forall t, w = VThread t -> w' = w) ->
  grows s s'.
Proof.
  intros H H' Hw. unfold grows.
  rewrite (writer_shaped _ _ _ _ _ H), (writer_shaped _ _ _ _ _ H'),
    (readers_shaped _ _ _ _ _ H), (readers_shaped _ _ _ _ _ H'),
    (rdqueue_shaped _ _ _ _ _ H), (rdqueue_shaped _ _ _ _ _ H'),
    (wrqueue_shaped _ _ _ _ _ H), (wrqueue_shaped _ _ _ _ _ H').
  split; [|split; [|split]].
  - intros t Ht. rewrite (Hw t Ht). done.
  - intros l [= <-]. eauto.
  - intros l [= <-]. eauto.
  - intros l [= <-]. eauto.
Qed.

Ltac shaped_nil :=
  match goal with
  | H : shaped _ _ _ _ _ |- shaped _ _ _ _ _ =>
      destruct H as (? & ? & ? & ? & ? & ?);
      unfold shaped; cbn [ivars]; rewrite ?app_nil_r; ivars_simpl; done
  end.

Lemma idle_queue_shaped s rq wq rh w :
  shaped s rq wq rh w -> idle_queue s <-> (w = Qnil -> rq = []).
Proof.
  intros H. unfold idle_queue.
  rewrite (writer_shaped _ _ _ _ _ H), (rdqueue_shaped _ _ _ _ _ H).
  split; intros Hq Hw; specialize (Hq Hw); congruence.
Qed.

Lemma idle_queue_ivars s s' : ivars s = ivars s' -> idle_queue s -> idle_queue s'.
Proof.
  unfold idle_queue, RWLock.writer, RWLock.rdqueue. by intros ->.
Qed.

Lemma orderly_rdlock_loop cr : orderly (RWLock.rdlock_loop cr).
Proof.
  intros c s Hinv Hq. split; [by apply preserves_rdlock_loop|].
  destruct Hinv as (rq & wq & rh & w & H & Hx).
  rewrite (idle_queue_shaped _ _ _ _ _ H) in Hq.
  rewrite (rdlock_loop_spec _ _ _ _ _ _ _ H).
  case_bool_decide as Hw; cbn [snd].
  - rewrite (Hq Hw) in *.
    assert (shaped (mkState (<["@rdheld":=VArray (rh ++ [c])]>
                               (<["@wrheld":=Qnil]> (ivars s)))
                            cr (woken [] (asleep s))) [] wq (rh ++ [c]) Qnil)
      as H' by shaped_solve.
    split; [by apply (idle_queue_shaped _ _ _ _ _ H')|]. split.
    + apply (grows_shaped _ _ [] wq rh w [] [] [c] Qnil); [done|shaped_nil|].
      intros t ->. done.
    + cbn [asleep]. unfold woken. cbn [list_to_set foldr].
      by rewrite difference_empty_L.
  - assert (shaped (mkState (<["@rdqueue":=VArray (rq ++ [c])]> (ivars s))
                            false ({[c]} ∪ asleep s)) (rq ++ [c]) wq rh w)
      as H' by shaped_solve.
    split; [by apply (idle_queue_shaped _ _ _ _ _ H')|]. split.
    + apply (grows_shaped _ _ rq wq rh w [c] [] [] w); [done|shaped_nil|done].
    + cbn [asleep]. apply union_subseteq_r.
Qed.

Lemma orderly_wrlock_loop cr : orderly (RWLock.wrlock_loop cr).
Proof.
  intros c s Hinv Hq. split; [by apply preserves_wrlock_loop|].
  destruct Hinv as (rq & wq & rh & w & H & Hx).
  rewrite (idle_queue_shaped _ _ _ _ _ H) in Hq.
  rewrite (wrlock_loop_spec _ _ _ _ _ _ _ H).
  destruct (bool_decide (rh = []) &&
            (bool_decide (w = VThread c) || bool_decide (w = Qnil))) eqn:E;
    cbn [snd].
  - assert (shaped (mkState (<["@wrheld":=VThread c]> (ivars s)) cr (asleep s))
              rq wq rh (VThread c)) as H' by shaped_solve.
    split; [by apply (idle_queue_shaped _ _ _ _ _ H')|]. split; [|done].
    apply (grows_shaped _ _ rq wq rh w [] [] [] (VThread c)); [done|shaped_nil|].
    intros t ->. apply andb_true_iff in E as [_ E].
    apply orb_true_iff in E as [E%bool_decide_eq_true|E%bool_decide_eq_true];
      congruence.
  - assert (shaped (mkState (<["@wrqueue":=VArray (wq ++ [c])]> (ivars s))
                            false ({[c]} ∪ asleep s)) rq (wq ++ [c]) rh w)
      as H' by shaped_solve.
    split; [by apply (idle_queue_shaped _ _ _ _ _ H')|]. split.
    + apply (grows_shaped _ _ rq wq rh w [] [c] [] w); [done|shaped_nil|done].
    + cbn [asleep]. apply union_subseteq_r.
Qed.

Lemma orderly_rdlock : orderly RWLock.rdlock.
Proof. intros c s H. apply (orderly_rdlock_loop (critical s) c s H). Qed.

Lemma orderly_wrlock : orderly RWLock.wrlock.
Proof. intros c s H. apply (orderly_wrlock_loop (critical s) c s H). Qed.

Lemma orderly_same {A} (m : M A) :
  (forall c s, ivars (snd (m c s)) = ivars s /\ asleep (snd (m c s)) = asleep s) ->
  orderly m.
Proof.
  intros Hm c s Hinv Hq. destruct (Hm c s) as [Ei Ea].
  split; [by apply (lock_inv_ivars s)|]. split; [by apply (idle_queue_ivars s)|].
  split; [by apply grows_ivars|by rewrite Ea].
Qed.

Lemma orderly_ret {A} (a : A) : orderly (ret a).
Proof. by apply orderly_same. Qed.

Lemma orderly_critical_set b : orderly (Thread_critical_set b).
Proof. by apply orderly_same. Qed.

Lemma orderly_seq s1 s2 s3 :
  lock_inv s2 /\ idle_queue s2 /\ grows s1 s2 /\ asleep s1 ⊆ asleep s2 ->
  lock_inv s3 /\ idle_queue s3 /\ grows s2 s3 /\ asleep s2 ⊆ asleep s3 ->
  lock_inv s3 /\ idle_queue s3 /\ grows s1 s3 /\ asleep s1 ⊆ asleep s3.
Proof.
  intros (I2 & Q2 & G12 & A12) (I3 & Q3 & G23 & A23).
  split; [done|]. split; [done|].
  split; [by eapply grows_trans|by etrans].
Qed.

Lemma orderly_bind {A B} (m : M A) (f : A -> M B) :
  orderly m -> (forall a, orderly (f a)) -> orderly (bind m f).
Proof.
  intros Hm Hf c s H Hq. specialize (Hm c s H Hq). unfold bind.
  destruct (m c s) as [[a|e|k] s']; cbn [snd] in *; [|done|done].
  apply (orderly_seq s s'); [done|]. by apply Hf; apply Hm.
Qed.

Lemma orderly_in_frame {A} f (m : M A) : orderly m -> orderly (in_frame f m).
Proof.
  intros Hm c s H Hq. specialize (Hm c s H Hq). unfold in_frame.
  by destruct (m c s) as [[a|e|k] s'].
Qed.

Lemma orderly_ensure {A} (m : M A) fin :
  orderly m -> orderly fin -> orderly (ensure m fin).
Proof.
  intros Hm Hf c s H Hq. specialize (Hm c s H Hq). unfold ensure.
  destruct (m c s) as [[a|e|k] s']; cbn [snd] in *; [| |done];
    pose proof (Hf c s' (proj1 Hm) (proj1 (proj2 Hm))) as Hf';
    destruct (fin c s') as [[?|?|?] ?]; cbn [snd] in *;
    by apply (orderly_seq s s').
Qed.

Lemma orderly_tryrdlock : orderly RWLock.tryrdlock.
Proof.
  unfold RWLock.tryrdlock. apply orderly_bind; [by apply orderly_same|].
  intros cr. apply orderly_in_frame, orderly_ensure; [|apply orderly_critical_set].
  apply orderly_bind; [by apply orderly_same|].
  intros [|]; [|apply orderly_ret].
  apply orderly_bind; [apply orderly_rdlock|intros _; apply orderly_ret].
Qed.

Lemma orderly_trywrlock : orderly RWLock.trywrlock.
Proof.
  intros c s Hinv Hq. split; [by apply preserves_trywrlock|].
  destruct Hinv as (rq & wq & rh & w & H & Hx).
  rewrite (trywrlock_spec _ _ _ _ _ _ H).
  destruct (bool_decide (w = Qnil) && bool_decide (rh = [])) eqn:E; cbn [snd].
  - assert (shaped (mkState (<["@wrheld":=VThread c]> (ivars s))
                            (critical s) (asleep s)) rq wq rh (VThread c))
      as H' by shaped_solve.
    split; [by apply (idle_queue_shaped _ _ _ _ _ H')|]. split; [|done].
    apply (grows_shaped _ _ rq wq rh w [] [] [] (VThread c)); [done|shaped_nil|].
    intros t ->. by apply andb_true_iff in E as [E%bool_decide_eq_true _].
  - split; [done|]. split; [apply grows_refl|done].
Qed.

Lemma orderly_unlock : orderly RWLock.unlock.
Proof.
  intros c s Hinv Hq. split; [by apply preserves_unlock|].
  destruct Hinv as (rq & wq & rh & w & H & Hx).
  rewrite (unlock_spec _ _ _ _ _ _ H). cbn [snd].
  split; [done|]. split; [apply grows_refl|done].
Qed.

Lemma orderly_continue f m : orderly m -> orderly (RWLock.continue f m).
Proof.
  intros Hm. destruct f; cbn [RWLock.continue].
  - apply orderly_bind; [done | intros _; apply orderly_rdlock_loop].
  - apply orderly_bind; [done | intros _; apply orderly_wrlock_loop].
  - apply orderly_bind; [done | intros _; apply orderly_rdlock].
  - apply orderly_bind; [done | intros _; apply orderly_wrlock].
  - apply orderly_in_frame, orderly_ensure; [|apply orderly_critical_set].
    apply orderly_bind; [done | intros _; apply orderly_ret].
Qed.

Lemma orderly_resume k : orderly (RWLock.resume k).
Proof.
  unfold RWLock.resume.
  generalize (ret (S:=rstate) Qnil) (orderly_ret (A:=VALUE) Qnil).
  induction k as [|f k IH]; intros m Hm; cbn [fold_left]; [done|].
  apply IH, orderly_continue, Hm.
Qed.

Lemma orderly_entry meth m :
  meth ∈ Sched.entry_points -> RWLock.method meth = Some m -> orderly m.
Proof.
  unfold Sched.entry_points. rewrite !elem_of_cons, elem_of_nil.
  intros [->|[->|[->|[->|[->|[]]]]]]; intros [= <-].
  - apply orderly_rdlock.
  - apply orderly_tryrdlock.
  - apply orderly_wrlock.
  - apply orderly_trywrlock.
  - apply orderly_unlock.
Qed.

Lemma step_idle_queue sys sys' :
  Sched.step sys sys' -> lock_inv (Sched.lock sys) ->
  idle_queue (Sched.lock sys) -> idle_queue (Sched.lock sys').
Proof.
  intros Hstep Hinv Hq. destruct Hstep; rewrite ?settle_lock; cbn [Sched.lock].
  - by eapply orderly_entry.
  - by apply orderly_resume.
  - done.
  - done.
  - by apply (idle_queue_ivars (Sched.lock sys)).
  - by apply (idle_queue_ivars (Sched.lock sys)).
Qed.

Lemma reachable_idle_queue sys : Sched.reachable sys -> idle_queue (Sched.lock sys).
Proof.
  induction 1 as [|sys sys' R IH Hstep]; [by intros _|].
  apply (step_idle_queue sys); [done| |done]. by apply reachable_lock_inv.
Qed.

Lemma step_grows sys sys' :
  Sched.step sys sys' -> lock_inv (Sched.lock sys) ->
  idle_queue (Sched.lock sys) ->
  grows (Sched.lock sys) (Sched.lock sys').
Proof.
  intros Hstep Hinv Hq. destruct Hstep; rewrite ?settle_lock; cbn [Sched.lock].
  - by eapply orderly_entry.
  - by apply orderly_resume.
  - apply grows_refl.
  - apply grows_refl.
  - by apply grows_ivars.
  - by apply grows_ivars.
Qed.

Lemma steps_reachable sys sys' :
  Sched.reachable sys -> rtc Sched.step sys sys' -> Sched.reachable sys'.
Proof.
  intros R Hs. induction Hs as [|x y z Hxy _ IH]; [done|].
  apply IH. by apply (Sched.reachable_step x).
Qed.

Lemma steps_grow sys sys' :
  Sched.reachable sys -> rtc Sched.step sys sys' ->
  grows (Sched.lock sys) (Sched.lock sys').
Proof.
  intros R Hs. induction Hs as [|x y z Hxy _ IH]; [apply grows_refl|].
  eapply grows_trans.
  - apply step_grows; [done| |]; [by apply reachable_lock_inv|].
    by apply reachable_idle_queue.
  - apply IH. by apply (Sched.reachable_step x).
Qed.

(** X7: the lock is never given up.  Whatever the threads do from a
    reachable state on, the thread recorded as writer stays the
    writer, the readers stay readers in their order, and the threads
    queued for reading or writing stay queued in their order: entries
    are only ever added at the end. *)
Theorem lock_is_never_released (sys sys' : Sched.system) :
  Sched.reachable sys ->
  rtc Sched.step sys sys' ->
  (forall t, RWLock.writer (Sched.lock sys) = VThread t ->
             RWLock.writer (Sched.lock sys') = VThread t)
  /\ (forall rh, RWLock.readers (Sched.lock sys) = VArray rh ->
        exists x, RWLock.readers (Sched.lock sys') = VArray (rh ++ x))
  /\ (forall rq, RWLock.rdqueue (Sched.lock sys) = VArray rq ->
        exists x, RWLock.rdqueue (Sched.lock sys') = VArray (rq ++ x))
  /\ (forall wq, RWLock.wrqueue (Sched.lock sys) = VArray wq ->
        exists x, RWLock.wrqueue (Sched.lock sys') = VArray (wq ++ x)).
Proof. intros R Hs. exact (steps_grow sys sys' R Hs). Qed.

Lemma step_to_both_queued :
  rtc Sched.step Scenario.sys_write_locked Scenario2.sys_both_queued.
Proof.
  eapply rtc_l.
  - apply (Sched.step_call Scenario.sys_write_locked 2 "rdlock");
      [reflexivity | vm_compute; set_solver
      | unfold Sched.entry_points; set_solver | reflexivity].
  - apply rtc_once.
    apply (Sched.step_call Scenario2.sys_reader_queued 3 "wrlock");
      [reflexivity | vm_compute; set_solver
      | unfold Sched.entry_points; set_solver | reflexivity].
Qed.

Lemma lock_is_never_released_witness :
  Sched.reachable Scenario.sys_write_locked
  /\ rtc Sched.step Scenario.sys_write_locked Scenario2.sys_both_queued
  /\ RWLock.writer (Sched.lock Scenario2.sys_both_queued) = VThread 1.
Proof.
  split; [apply reachable_sys_write_locked|]. split; [apply step_to_both_queued|].
  apply (proj1 (lock_is_never_released Scenario.sys_write_locked
                  Scenario2.sys_both_queued reachable_sys_write_locked
                  step_to_both_queued) 1).
  vm_compute. reflexivity.
Defined.

(** X8: a lock that is held keeps everybody else out for good.  If a
    writer holds the lock in a reachable state then, whatever happens
    afterwards, every pass of any thread through the loop of [rdlock]
    (a new call or a stopped thread that was woken) stops it again;
    and if readers or a writer other than [c] hold it, every pass of
    [c] through the loop of [wrlock] stops it again. *)
Theorem held_lock_blocks_forever (sys sys' : Sched.system) (c : tid) (cr : bool) :
  Sched.reachable sys ->
  rtc Sched.step sys sys' ->
  (Sched.write_held (Sched.lock sys) ->
   fst (RWLock.rdlock_loop cr c (Sched.lock sys')) = Stop [InRdlock cr])
  /\ (Sched.read_held (Sched.lock sys)
      \/ (exists t, t <> c /\ RWLock.writer (Sched.lock sys) = VThread t) ->
      fst (RWLock.wrlock_loop cr c (Sched.lock sys')) = Stop [InWrlock cr]).
Proof.
  intros R Hs. destruct (steps_grow sys sys' R Hs) as (Hw & Hr & _).
  pose proof (steps_reachable _ _ R Hs) as R'.
  destruct (lock_inv_shaped _ (reachable_lock_inv _ R'))
    as (rq & wq & rh & w & H & Hx & _ & _ & Hrh & Hwr).
  split.
  - intros (t & Ht). specialize (Hw t Ht). rewrite Hwr in Hw. subst w.
    rewrite (rdlock_loop_spec _ _ _ _ _ _ _ H).
    by rewrite bool_decide_eq_false_2.
  - intros Hheld. rewrite (wrlock_loop_spec _ _ _ _ _ _ _ H).
    destruct Hheld as [(t & l & Hl)|(t & Hne & Ht)].
    + destruct (Hr _ Hl) as (x & Hx'). rewrite Hrh in Hx'.
      injection Hx' as ->. by rewrite (bool_decide_eq_false_2 (_ = [])).
    + specialize (Hw t Ht). rewrite Hwr in Hw. subst w.
      rewrite (bool_decide_eq_false_2 (VThread t = VThread c)) by congruence.
      rewrite (bool_decide_eq_false_2 (VThread t = Qnil)) by done.
      by rewrite andb_false_r.
Qed.

Lemma held_lock_blocks_forever_witness :
  Sched.reachable Scenario.sys_write_locked
  /\ rtc Sched.step Scenario.sys_write_locked Scenario2.sys_both_queued
  /\ fst (RWLock.rdlock_loop false 2 (Sched.lock Scenario2.sys_both_queued))
     = Stop [InRdlock false].
Proof.
  split; [apply reachable_sys_write_locked|]. split; [apply step_to_both_queued|].
  apply (proj1 (held_lock_blocks_forever Scenario.sys_write_locked
                  Scenario2.sys_both_queued 2 false reachable_sys_write_locked
                  step_to_both_queued)).
  exists 1. vm_compute. reflexivity.
Defined.

(** X9: the lock never wakes anybody.  In a step from a reachable
    state, a thread that was asleep and no longer is was woken by code
    outside the lock: no call of a lock method and no resumption of a
    stopped thread takes a thread out of its sleep. *)
Theorem lock_never_wakes_a_thread (sys sys' : Sched.system) (t : tid) :
  Sched.reachable sys ->
  Sched.step sys sys' ->
  t ∈ asleep (Sched.lock sys) ->
  t ∉ asleep (Sched.lock sys') ->
  sys' = Sched.mkSystem (wake t (Sched.lock sys)) (Sched.suspended sys).
Proof.
  intros R Hstep Ht Hn. pose proof (reachable_lock_inv _ R) as Hinv.
  pose proof (reachable_idle_queue _ R) as Hq.
  destruct Hstep as [sys u meth m _ _ Hm1 Hm2|sys u k _ _| | |sys u|];
    rewrite ?settle_lock in Hn; cbn [Sched.lock] in *.
  - destruct Hn. by apply (orderly_entry meth m Hm1 Hm2 u _ Hinv Hq).
  - destruct Hn. by apply (orderly_resume k u _ Hinv Hq).
  - done.
  - done.
  - destruct (decide (u = t)) as [->|Hne]; [done|].
    destruct Hn. unfold wake. cbn [asleep].
    apply elem_of_difference. split; [done|]. by rewrite elem_of_singleton.
  - done.
Qed.

Lemma lock_never_wakes_a_thread_witness :
  Sched.reachable Scenario2.sys_reader_queued
  /\ Sched.step Scenario2.sys_reader_queued
       (Sched.mkSystem (wake 2 (Sched.lock Scenario2.sys_reader_queued))
          (Sched.suspended Scenario2.sys_reader_queued))
  /\ Sched.mkSystem (wake 2 (Sched.lock Scenario2.sys_reader_queued))
       (Sched.suspended Scenario2.sys_reader_queued)
     = Sched.mkSystem (wake 2 (Sched.lock Scenario2.sys_reader_queued))
         (Sched.suspended Scenario2.sys_reader_queued).
Proof.
  split; [apply reachable_sys_reader_queued|].
  split; [apply Sched.step_wakeup|].
  apply (lock_never_wakes_a_thread Scenario2.sys_reader_queued _ 2
           reachable_sys_reader_queued
           (Sched.step_wakeup Scenario2.sys_reader_queued 2)).
  - vm_compute. reflexivity.
  - vm_compute. discriminate.
Defined.
(** ** The try entry points *)

(** X1: in every reachable state [canrlock], run without a thread
    switch between its test and its call of [rdlock], returns without
    stopping the caller and without raising: 1 when no writer holds
    the lock,
    and then the caller is the newest reader while the sleeping
    threads and [Thread.critical] are as before; 0 when a writer holds
    it, and then nothing has changed. *)
Theorem canrlock_status (sys : Sched.system) (c : tid) :
  Sched.reachable sys ->
  let s := Sched.lock sys in
  exists rh,
    RWLock.readers s = VArray rh
    /\ (RWLock.writer s = Qnil ->
        exists s', thread_ruby.canrlock c s = (Ret 1%Z, s')
                   /\ RWLock.readers s' = VArray (rh ++ [c])
                   /\ RWLock.writer s' = Qnil
                   /\ asleep s' = asleep s
                   /\ critical s' = critical s)
    /\ (RWLock.writer s <> Qnil -> thread_ruby.canrlock c s = (Ret 0%Z, s)).
Proof.
  intros R s. pose proof (reachable_idle_queue _ R) as Hq. revert R.
  intros (rq & wq & rh & w & H & Hx & Hrq & Hwq & Hrh & Hw)%reachable_lock_inv%lock_inv_shaped.
  fold s in H, Hrq, Hwq, Hrh, Hw, Hq.
  rewrite (idle_queue_shaped _ _ _ _ _ H) in Hq. exists rh. rewrite Hw.
  split; [done|].
  unfold thread_ruby.canrlock, bind.
  change (thread_ruby.call_rwlock "tryrdlock") with RWLock.tryrdlock.
  rewrite (tryrdlock_spec _ _ _ _ _ _ H). split.
  - intros ->. rewrite bool_decide_eq_true_2 by done.
    eexists. split; [reflexivity|].
    unfold RWLock.readers, RWLock.writer. cbn [ivars asleep critical].
    ivars_simpl. rewrite (Hq eq_refl). unfold woken. cbn [list_to_set foldr].
    by rewrite difference_empty_L.
  - intros Hn. by rewrite bool_decide_eq_false_2.
Qed.

Lemma canrlock_status_witness :
  Sched.reachable Scenario.sys_two_readers
  /\ exists s', thread_ruby.canrlock 3 (Sched.lock Scenario.sys_two_readers)
                = (Ret 1%Z, s')
                /\ RWLock.readers s' = VArray [1; 2; 3].
Proof.
  split; [apply reachable_two_readers|].
  destruct (canrlock_status Scenario.sys_two_readers 3 reachable_two_readers)
    as (rh & Hrh & Hfree & _).
  destruct (Hfree eq_refl) as (s' & E & Hr & _).
  exists s'. split; [exact E|].
  rewrite Hr. vm_compute in Hrh. injection Hrh as <-. reflexivity.
Defined.

(** X2: in every reachable state [canwlock], run without a thread
    switch between its test and its call of [wrlock], returns without
    stopping the caller and without raising: 1 when neither a writer
    nor a reader holds the lock, and then the caller is the writer and
    nothing else has changed; 0 otherwise, and then nothing has
    changed. *)
Theorem canwlock_status (sys : Sched.system) (c : tid) :
  Sched.reachable sys ->
  let s := Sched.lock sys in
  (RWLock.writer s = Qnil -> RWLock.readers s = VArray [] ->
   exists s', thread_ruby.canwlock c s = (Ret 1%Z, s')
              /\ RWLock.writer s' = VThread c
              /\ RWLock.readers s' = VArray []
              /\ RWLock.rdqueue s' = RWLock.rdqueue s
              /\ RWLock.wrqueue s' = RWLock.wrqueue s
              /\ asleep s' = asleep s /\ critical s' = critical s)
  /\ (RWLock.writer s <> Qnil \/ RWLock.readers s <> VArray [] ->
      thread_ruby.canwlock c s = (Ret 0%Z, s)).
Proof.
  intros (rq & wq & rh & w & H & Hx & Hrq & Hwq & Hrh & Hw)%reachable_lock_inv%lock_inv_shaped s.
  fold s in H, Hrq, Hwq, Hrh, Hw. rewrite Hw, Hrh, Hrq, Hwq.
  unfold thread_ruby.canwlock, bind.
  change (thread_ruby.call_rwlock "trywrlock") with RWLock.trywrlock.
  rewrite (trywrlock_spec _ _ _ _ _ _ H). split.
  - intros -> [= ->]. rewrite !bool_decide_eq_true_2 by done. cbn [andb].
    eexists. split; [reflexivity|].
    unfold RWLock.readers, RWLock.writer, RWLock.rdqueue, RWLock.wrqueue.
    cbn [ivars asleep critical]. destruct H as (E1 & E2 & E3 & _).
    ivars_simpl. by rewrite E1, E2, E3.
  - intros [Hn|Hn].
    + by rewrite (bool_decide_eq_false_2 (w = Qnil)).
    + rewrite (bool_decide_eq_false_2 (rh = [])), andb_false_r; [done|].
      by intros ->.
Qed.

Lemma canwlock_status_witness :
  Sched.reachable Scenario.sys_two_readers
  /\ thread_ruby.canwlock 3 (Sched.lock Scenario.sys_two_readers)
     = (Ret 0%Z, Sched.lock Scenario.sys_two_readers).
Proof.
  split; [apply reachable_two_readers|].
  apply (proj2 (canwlock_status Scenario.sys_two_readers 3 reachable_two_readers)).
  right. discriminate.
Defined.

(** ** Blocking and waking *)

Lemma rlock_run c s :
  thread_ruby.rlock c s
  = match RWLock.rdlock c s with
    | (Ret _, s') => (Ret tt, s')
    | (Raise e, s') => (Raise e, s')
    | (Stop k, s') => (Stop k, s')
    end.
Proof. reflexivity. Qed.

Lemma wlock_run c s :
  thread_ruby.wlock c s
  = match RWLock.wrlock c s with
    | (Ret _, s') => (Ret tt, s')
    | (Raise e, s') => (Raise e, s')
    | (Stop k, s') => (Stop k, s')
    end.
Proof. reflexivity. Qed.

(** X3: a caller that [rlock] or [wlock] cannot serve is appended at
    the end of the read queue, respectively the write queue, and
    stopped with [Thread.critical] reset; holders, the other queue and
    the other sleeping threads are as before. *)
Theorem blocked_caller_is_queued (sys : Sched.system) (c : tid) :
  Sched.reachable sys ->
  let s := Sched.lock sys in
  (Sched.write_held s -> forall rq, RWLock.rdqueue s = VArray rq ->
     thread_ruby.rlock c s
     = (Stop [InRdlock (critical s)],
        mkState (<["@rdqueue" := VArray (rq ++ [c])]> (ivars s))
                false ({[c]} ∪ asleep s)))
  /\ (Sched.read_held s \/ (exists t, t <> c /\ RWLock.writer s = VThread t) ->
      forall wq, RWLock.wrqueue s = VArray wq ->
      thread_ruby.wlock c s
      = (Stop [InWrlock (critical s)],
         mkState (<["@wrqueue" := VArray (wq ++ [c])]> (ivars s))
                 false ({[c]} ∪ asleep s))).
Proof.
  intros (rq & wq & rh & w & H & Hx & Hrq & Hwq & Hrh & Hw)%reachable_lock_inv%lock_inv_shaped s.
  fold s in H, Hrq, Hwq, Hrh, Hw.
  unfold Sched.write_held, Sched.read_held. rewrite Hw, Hrh, Hrq, Hwq. split.
  - intros (t & ->) ? [= <-]. rewrite rlock_run.
    rewrite (rdlock_spec _ _ _ _ _ _ H), (rdlock_loop_spec _ _ _ _ _ _ _ H).
    by rewrite bool_decide_eq_false_2.
  - intros Hheld ? [= <-]. rewrite wlock_run.
    rewrite (wrlock_spec _ _ _ _ _ _ H), (wrlock_loop_spec _ _ _ _ _ _ _ H).
    destruct Hheld as [(t & l & [= ->])|(t & Hne & ->)].
    + by rewrite (bool_decide_eq_false_2 (_ :: _ = [])).
    + rewrite (bool_decide_eq_false_2 (VThread t = VThread c)) by congruence.
      rewrite (bool_decide_eq_false_2 (VThread t = Qnil)) by done.
      by rewrite andb_false_r.
Qed.

Lemma blocked_caller_is_queued_witness :
  Sched.reachable Scenario2.sys_reader_queued
  /\ fst (thread_ruby.wlock 3 (Sched.lock Scenario2.sys_reader_queued))
     = Stop [InWrlock false]
  /\ RWLock.wrqueue (snd (thread_ruby.wlock 3 (Sched.lock Scenario2.sys_reader_queued)))
     = VArray [3].
Proof.
  split; [apply reachable_sys_reader_queued|].
  assert (Sched.read_held (Sched.lock Scenario2.sys_reader_queued)
          \/ exists t, t <> 3
               /\ RWLock.writer (Sched.lock Scenario2.sys_reader_queued) = VThread t)
    as Hheld by (right; exists 1; split; [discriminate | reflexivity]).
  rewrite (proj2 (blocked_caller_is_queued Scenario2.sys_reader_queued 3
                    reachable_sys_reader_queued) Hheld [] eq_refl).
  split; vm_compute; reflexivity.
Defined.

(** X4: on a well-formed lock without writer, [rlock] returns, the
    caller is the newest reader, exactly the sleeping threads listed
    in the read queue are woken, and both queues stay as they were:
    the read queue is not emptied. *)
Theorem rlock_wakes_read_queue (s : rstate) (rq wq rh : list tid) (c : tid) :
  shaped s rq wq rh Qnil ->
  exists s',
    thread_ruby.rlock c s = (Ret tt, s')
    /\ RWLock.readers s' = VArray (rh ++ [c])
    /\ asleep s' = asleep s ∖ list_to_set rq
    /\ RWLock.rdqueue s' = VArray rq
    /\ RWLock.wrqueue s' = VArray wq
    /\ critical s' = critical s.
Proof.
  intros H. eexists.
  rewrite rlock_run, (rdlock_spec _ _ _ _ _ _ H), (rdlock_loop_spec _ _ _ _ _ _ _ H).
  rewrite bool_decide_eq_true_2 by done. split; [reflexivity|].
  unfold RWLock.readers, RWLock.rdqueue, RWLock.wrqueue.
  cbn [ivars asleep critical]. destruct H as (E1 & E2 & _).
  ivars_simpl. by rewrite E1, E2.
Qed.

Lemma rlock_wakes_read_queue_witness :
  shaped (mkState (<["@rdqueue" := VArray [5; 6]]> RWLock.new) false {[5; 7]})
    [5; 6] [] [] Qnil
  /\ exists s',
      thread_ruby.rlock 3
        (mkState (<["@rdqueue" := VArray [5; 6]]> RWLock.new) false {[5; 7]})
      = (Ret tt, s')
      /\ asleep s' = ({[5; 7]} : gset tid) ∖ list_to_set [5; 6].
Proof.
  assert (shaped (mkState (<["@rdqueue" := VArray [5; 6]]> RWLock.new) false {[5; 7]})
            [5; 6] [] [] Qnil) as H by (repeat split).
  split; [exact H|].
  destruct (rlock_wakes_read_queue _ _ _ _ 3 H) as (s' & E & _ & Ha & _).
  exists s'. split; [exact E | exact Ha].
Defined.

(** X5: every method the backend calls leaves [Thread.critical] as it
    found it when it returns or raises, and leaves it reset when it
    stops the caller. *)
Theorem critical_is_restored (sys : Sched.system) (meth : string) (m : M VALUE)
    (c : tid) :
  Sched.reachable sys ->
  meth ∈ Sched.entry_points ->
  RWLock.method meth = Some m ->
  match fst (m c (Sched.lock sys)) with
  | Stop _ => critical (snd (m c (Sched.lock sys))) = false
  | _ => critical (snd (m c (Sched.lock sys))) = critical (Sched.lock sys)
  end.
Proof.
  intros (rq & wq & rh & w & H & Hx)%reachable_lock_inv.
  unfold Sched.entry_points. rewrite !elem_of_cons, elem_of_nil.
  intros [->|[->|[->|[->|[->|[]]]]]]; intros [= <-].
  - rewrite (rdlock_spec _ _ _ _ _ _ H), (rdlock_loop_spec _ _ _ _ _ _ _ H).
    by case_bool_decide.
  - rewrite (tryrdlock_spec _ _ _ _ _ _ H). by case_bool_decide.
  - rewrite (wrlock_spec _ _ _ _ _ _ H), (wrlock_loop_spec _ _ _ _ _ _ _ H).
    by destruct (_ && _).
  - rewrite (trywrlock_spec _ _ _ _ _ _ H). by destruct (_ && _).
  - by rewrite (unlock_spec _ _ _ _ _ _ H).
Qed.

Lemma critical_is_restored_witness :
  Sched.reachable Scenario.sys_write_locked
  /\ critical (snd (RWLock.unlock 1 (Sched.lock Scenario.sys_write_locked))) = false.
Proof.
  split; [apply reachable_sys_write_locked|].
  apply (critical_is_restored Scenario.sys_write_locked "unlock" RWLock.unlock 1
           reachable_sys_write_locked).
  - unfold Sched.entry_points. do 4 apply list_elem_of_further. apply list_elem_of_here.
  - reflexivity.
Defined.

(** X6: in every reachable state the backend's unlock raises for every
    caller, NoMethodError for [remove!] when the caller is among the
    readers and RuntimeError otherwise, and the lock, the queues, the
    sleeping threads and [Thread.critical] are as before the call. *)
Theorem rwunlock_raises_for_everyone (sys : Sched.system) (c : tid) :
  Sched.reachable sys ->
  exists rh,
    RWLock.readers (Sched.lock sys) = VArray rh
    /\ thread_ruby.rwunlock c (Sched.lock sys)
       = (Raise (if bool_decide (c ∈ rh)
                 then NoMethodError (VArray rh) "remove!"
                 else RuntimeError),
          Sched.lock sys).
Proof.
  intros (rq & wq & rh & w & H & _)%reachable_lock_inv. exists rh.
  split; [by apply (readers_shaped _ _ _ _ _ H)|].
  unfold thread_ruby.rwunlock, bind. rewrite call_rwlock_unlock.
  by rewrite (unlock_spec _ _ _ _ _ _ H).
Qed.

Lemma rwunlock_raises_for_everyone_witness :
  Sched.reachable Scenario.sys_two_readers
  /\ thread_ruby.rwunlock 2 (Sched.lock Scenario.sys_two_readers)
     = (Raise (NoMethodError (VArray [1; 2]) "remove!"),
        Sched.lock Scenario.sys_two_readers).
Proof.
  split; [apply reachable_two_readers|].
  destruct (rwunlock_raises_for_everyone Scenario.sys_two_readers 2
              reachable_two_readers) as (rh & Hrh & E).
  vm_compute in Hrh. injection Hrh as <-. exact E.
Defined.

(** * Further properties of the yielding IO *)

Lemma to_signed_range bits x :
  (0 < bits)%Z ->
  (- 2 ^ (bits - 1) <= thread_ruby.to_signed bits x < 2 ^ (bits - 1))%Z.
Proof.
  intros Hb. unfold thread_ruby.to_signed.
  assert (2 ^ bits = 2 * 2 ^ (bits - 1))%Z as E.
  { rewrite <- Z.pow_succ_r by lia. f_equal. lia. }
  assert (0 < 2 ^ (bits - 1))%Z by (apply Z.pow_pos_nonneg; lia).
  pose proof (Z.mod_pos_bound (x + 2 ^ (bits - 1)) (2 ^ bits)). lia.
Qed.

Lemma to_signed_congruent bits x :
  (0 < bits)%Z ->
  ((thread_ruby.to_signed bits x) mod 2 ^ bits = x mod 2 ^ bits)%Z.
Proof.
  intros Hb. unfold thread_ruby.to_signed.
  assert (0 < 2 ^ bits)%Z by (apply Z.pow_pos_nonneg; lia).
  rewrite Zminus_mod_idemp_l. f_equal. lia.
Qed.

(** X10: on every target whose [ssize_t] is at least as wide as its
    [int], a result of the system call that fits [int] is what [_read]
    and [_write] return (the byte count, 0, or -1), and the scheduler
    is entered once more exactly when that result is negative and
    [errno] is EINTR; otherwise the state is the one the system call
    left. *)
Theorem read_write_pass_int_results {OS : Type}
    (errno : OS -> Z) (EINTR : Z)
    (transfer : Z -> Z -> OS -> Z * OS) (wait : Z -> OS -> OS)
    (rb_thread_schedule : OS -> OS) (target : thread_ruby.abi)
    (fd size : Z) (st : OS) :
  (0 < thread_ruby.int_bits target)%Z ->
  (thread_ruby.int_bits target <= thread_ruby.ssize_bits target)%Z ->
  (- 2 ^ (thread_ruby.int_bits target - 1)
   <= fst (transfer fd size (wait fd st))
   < 2 ^ (thread_ruby.int_bits target - 1))%Z ->
  let r := fst (transfer fd size (wait fd st)) in
  let st2 := snd (transfer fd size (wait fd st)) in
  thread_ruby._read errno EINTR transfer wait rb_thread_schedule target fd size st
  = (r, if (r <? 0)%Z && (errno st2 =? EINTR)%Z
        then rb_thread_schedule st2 else st2)
  /\ thread_ruby._write errno EINTR transfer wait rb_thread_schedule target fd size st
     = (r, if (r <? 0)%Z && (errno st2 =? EINTR)%Z
           then rb_thread_schedule st2 else st2).
Proof.
  intros Hi Hs Hr r st2. split.
  - by apply _read_in_range.
  - by apply _write_in_range.
Qed.

Lemma read_write_pass_int_results_witness :
  thread_ruby._read thread_ruby.os_errno 4 thread_ruby.os_transfer
    thread_ruby.os_wait thread_ruby.os_schedule thread_ruby.LP64 0 16
    (thread_ruby.mkOs 0 0 (12, 0)%Z)
  = (12%Z, thread_ruby.mkOs 0 1 (12, 0)%Z).
Proof.
  refine (proj1 (read_write_pass_int_results thread_ruby.os_errno 4
                   thread_ruby.os_transfer thread_ruby.os_wait
                   thread_ruby.os_schedule thread_ruby.LP64 0 16
                   (thread_ruby.mkOs 0 0 (12, 0)%Z) _ _ _));
    vm_compute; try split; congruence.
Defined.

(** X11: on every target whose [ssize_t] is at least as wide as its
    [int], whatever the system call returns, the value [_read] and
    [_write] return lies in the range of [int] and agrees with the
    system call's result modulo [2^int_bits]. *)
Theorem read_write_result_in_int_range {OS : Type}
    (errno : OS -> Z) (EINTR : Z)
    (transfer : Z -> Z -> OS -> Z * OS) (wait : Z -> OS -> OS)
    (rb_thread_schedule : OS -> OS) (target : thread_ruby.abi)
    (fd size : Z) (st : OS) :
  (0 < thread_ruby.int_bits target)%Z ->
  (thread_ruby.int_bits target <= thread_ruby.ssize_bits target)%Z ->
  let r := fst (transfer fd size (wait fd st)) in
  let n := fst (thread_ruby._read errno EINTR transfer wait rb_thread_schedule
                  target fd size st) in
  let n' := fst (thread_ruby._write errno EINTR transfer wait rb_thread_schedule
                   target fd size st) in
  n = n'
  /\ (- 2 ^ (thread_ruby.int_bits target - 1) <= n
      < 2 ^ (thread_ruby.int_bits target - 1))%Z
  /\ (n mod 2 ^ thread_ruby.int_bits target
      = r mod 2 ^ thread_ruby.int_bits target)%Z.
Proof.
  intros Hi Hs r n n'. subst r n n'. unfold thread_ruby._read, thread_ruby._write.
  destruct (transfer fd size (wait fd st)) as [r st2]. cbn [fst].
  pose proof (to_signed_range (thread_ruby.int_bits target) r Hi) as Hr.
  rewrite (to_signed_id (thread_ruby.ssize_bits target)).
  - split; [done|]. split; [done|]. by apply to_signed_congruent.
  - lia.
  - pose proof (pow2_mono (thread_ruby.int_bits target - 1)
                  (thread_ruby.ssize_bits target - 1)). lia.
Qed.

Lemma read_write_result_in_int_range_witness :
  (- 2 ^ 31
   <= fst (thread_ruby._read thread_ruby.os_errno 4 thread_ruby.os_transfer
             thread_ruby.os_wait thread_ruby.os_schedule thread_ruby.LP64
             0 (2 ^ 32) (thread_ruby.mkOs 0 0 (2 ^ 32 + 5, 0)%Z))
   < 2 ^ 31)%Z.
Proof.
  refine (proj1 (proj2 (read_write_result_in_int_range thread_ruby.os_errno 4
                   thread_ruby.os_transfer thread_ruby.os_wait
                   thread_ruby.os_schedule thread_ruby.LP64 0 (2 ^ 32)
                   (thread_ruby.mkOs 0 0 (2 ^ 32 + 5, 0)%Z) _ _)));
    vm_compute; congruence.
Defined.

(** * Further properties of the error buffer *)

Lemma errbuf_nil n t k loc heap :
  k = 0%Z \/ k = thread_ruby.errbuf_key ->
  loc !! (t, thread_ruby.errbuf_key) = Some Qnil ->
  thread_ruby.errbuf n t (thread_ruby.mkInterp k loc heap)
  = (Ret (fresh (dom heap)),
     thread_ruby.mkInterp thread_ruby.errbuf_key
       (<[(t, thread_ruby.errbuf_key) := VString (fresh (dom heap))]> loc)
       (<[fresh (dom heap) := n]> heap)).
Proof.
  intros [->| ->] Hl; ib_run;
    [change (0 =? 0)%Z with true
    |change (thread_ruby.errbuf_key =? 0)%Z with false];
    ib_run; fold thread_ruby.errbuf_key; rewrite Hl; reflexivity.
Qed.

Lemma errbuf_other n t k loc heap v :
  k = 0%Z \/ k = thread_ruby.errbuf_key ->
  loc !! (t, thread_ruby.errbuf_key) = Some v ->
  v <> Qnil -> (forall p, v <> VString p) ->
  thread_ruby.errbuf n t (thread_ruby.mkInterp k loc heap)
  = (Raise TypeError, thread_ruby.mkInterp thread_ruby.errbuf_key loc heap).
Proof.
  intros Hk Hl Hn Hs.
  destruct Hk as [->| ->]; ib_run;
    [change (0 =? 0)%Z with true
    |change (thread_ruby.errbuf_key =? 0)%Z with false];
    ib_run; fold thread_ruby.errbuf_key; rewrite Hl;
    destruct v; try reflexivity; try done; by destruct (Hs p).
Qed.

(** X12: when the calling thread's [_ixp_errbuf] local holds something
    that is neither [nil] nor a String, [errbuf] raises TypeError,
    allocates nothing and leaves the thread-local variables as they
    are. *)
Theorem errbuf_rejects_non_string (n : nat) (t : tid) (st : thread_ruby.interp)
    (v : VALUE) :
  thread_ruby.key st = 0%Z \/ thread_ruby.key st = thread_ruby.errbuf_key ->
  thread_ruby.locals st !! (t, thread_ruby.errbuf_key) = Some v ->
  v <> Qnil -> (forall p, v <> VString p) ->
  thread_ruby.errbuf n t st
  = (Raise TypeError,
     thread_ruby.mkInterp thread_ruby.errbuf_key
       (thread_ruby.locals st) (thread_ruby.str_heap st)).
Proof. destruct st as [k loc heap]. apply errbuf_other. Qed.

Lemma errbuf_rejects_non_string_witness :
  thread_ruby.errbuf 128 1
    (thread_ruby.mkInterp 0 {[ (1, thread_ruby.errbuf_key) := Qtrue ]} ∅)
  = (Raise TypeError,
     thread_ruby.mkInterp thread_ruby.errbuf_key
       {[ (1, thread_ruby.errbuf_key) := Qtrue ]} ∅).
Proof.
  refine (errbuf_rejects_non_string 128 1
            (thread_ruby.mkInterp 0 {[ (1, thread_ruby.errbuf_key) := Qtrue ]} ∅)
            Qtrue _ _ _ _).
  - left. reflexivity.
  - vm_compute. reflexivity.
  - discriminate.
  - discriminate.
Defined.

Lemma errbuf_cases n t k loc heap :
  k = 0%Z \/ k = thread_ruby.errbuf_key ->
  (exists p, loc !! (t, thread_ruby.errbuf_key) = Some (VString p)
     /\ thread_ruby.errbuf n t (thread_ruby.mkInterp k loc heap)
        = (Ret p, thread_ruby.mkInterp thread_ruby.errbuf_key loc heap))
  \/ ((loc !! (t, thread_ruby.errbuf_key) = None
       \/ loc !! (t, thread_ruby.errbuf_key) = Some Qnil)
      /\ thread_ruby.errbuf n t (thread_ruby.mkInterp k loc heap)
         = (Ret (fresh (dom heap)),
            thread_ruby.mkInterp thread_ruby.errbuf_key
              (<[(t, thread_ruby.errbuf_key) := VString (fresh (dom heap))]> loc)
              (<[fresh (dom heap) := n]> heap)))
  \/ (thread_ruby.errbuf n t (thread_ruby.mkInterp k loc heap)
      = (Raise TypeError, thread_ruby.mkInterp thread_ruby.errbuf_key loc heap)).
Proof.
  intros Hk. destruct (loc !! (t, thread_ruby.errbuf_key)) as [v|] eqn:Hl.
  - destruct (decide (v = Qnil)) as [->|Hn].
    { right; left. split; [by right|]. by apply errbuf_nil. }
    destruct v as [| | | | |p|];
      try done;
      try (right; right; by apply (errbuf_other _ _ _ _ _ _ Hk Hl)).
    left. exists p. split; [done|]. by apply errbuf_hit.
  - right; left. split; [by left|]. by apply errbuf_miss.
Qed.

(** X13: a call of [errbuf] touches nothing but the caller's own
    [_ixp_errbuf] local: every other thread-local variable, of this
    and of every other thread, reads as before, every String that
    existed is still there with its length, and at most one String is
    new, the one returned. *)
Theorem errbuf_touches_only_its_local (n : nat) (t : tid) (st : thread_ruby.interp) :
  thread_ruby.key st = 0%Z \/ thread_ruby.key st = thread_ruby.errbuf_key ->
  let r := fst (thread_ruby.errbuf n t st) in
  let st' := snd (thread_ruby.errbuf n t st) in
  thread_ruby.key st' = thread_ruby.errbuf_key
  /\ (forall t' id, (t', id) <> (t, thread_ruby.errbuf_key) ->
        thread_ruby.locals st' !! (t', id) = thread_ruby.locals st !! (t', id))
  /\ thread_ruby.str_heap st ⊆ thread_ruby.str_heap st'
  /\ (forall p, p ∈ dom (thread_ruby.str_heap st') ->
        p ∈ dom (thread_ruby.str_heap st) \/ r = Ret p).
Proof.
  destruct st as [k loc heap].
  cbn [thread_ruby.key thread_ruby.locals thread_ruby.str_heap].
  intros Hk. cbv zeta.
  destruct (errbuf_cases n t k loc heap Hk) as [(p & _ & ->)|[[_ ->]| ->]];
    cbn [fst snd thread_ruby.key thread_ruby.locals thread_ruby.str_heap].
  - repeat split; auto.
  - split; [done|]. split; [|split].
    + intros t' id Hne. by rewrite lookup_insert_ne.
    + apply insert_subseteq, not_elem_of_dom, is_fresh.
    + intros p. rewrite dom_insert_L, elem_of_union, elem_of_singleton.
      intros [->|Hp]; [by right|by left].
  - repeat split; auto.
Qed.

Lemma errbuf_touches_only_its_local_witness :
  thread_ruby.key (snd (thread_ruby.errbuf 128 1 thread_ruby.interp0))
  = thread_ruby.errbuf_key.
Proof.
  apply (errbuf_touches_only_its_local 128 1 thread_ruby.interp0).
  left. reflexivity.
Defined.

(** X14: a thread that got a buffer from [errbuf] gets the same one
    from its next call, and that call changes nothing in the
    interpreter. *)
Theorem errbuf_again_changes_nothing (n : nat) (t : tid)
    (st st1 : thread_ruby.interp) (p : addr) :
  thread_ruby.key st = 0%Z \/ thread_ruby.key st = thread_ruby.errbuf_key ->
  thread_ruby.errbuf n t st = (Ret p, st1) ->
  thread_ruby.errbuf n t st1 = (Ret p, st1).
Proof.
  destruct st as [k loc heap]. cbn [thread_ruby.key]. intros Hk.
  destruct (errbuf_cases n t k loc heap Hk) as [(q & Hq & ->)|[[_ ->]| ->]];
    intros [= <- <-].
  - apply errbuf_hit; [by right|done].
  - apply errbuf_hit; [by right|]. by rewrite lookup_insert_eq.
Qed.

Lemma errbuf_again_changes_nothing_witness :
  thread_ruby.errbuf 128 1 (snd (thread_ruby.errbuf 128 1 thread_ruby.interp0))
  = (Ret 0, snd (thread_ruby.errbuf 128 1 thread_ruby.interp0)).
Proof.
  apply (errbuf_again_changes_nothing 128 1 thread_ruby.interp0).
  - left. reflexivity.
  - vm_compute. reflexivity.
Defined.

(** * Stopped threads and the queues *)

Lemma queued_grows c k s s' : grows s s' -> queued c k s -> queued c k s'.
Proof.
  intros (_ & _ & Hrq & Hwq). destruct k as [|[cr|cr| | |cr] k]; cbn [queued]; try done.
  - intros (l & Hl & Hc). destruct (Hrq l Hl) as (x & Hx). exists (l ++ x).
    split; [done|]. apply elem_of_app. by left.
  - intros (l & Hl & Hc). destruct (Hwq l Hl) as (x & Hx). exists (l ++ x).
    split; [done|]. apply elem_of_app. by left.
Qed.

Lemma queued_ivars c k s s' : ivars s = ivars s' -> queued c k s -> queued c k s'.
Proof. intros E. apply queued_grows. by apply grows_ivars. Qed.

Lemma stops_queued_rdlock_loop cr : stops_queued (RWLock.rdlock_loop cr).
Proof.
  intros c s k s' (rq & wq & rh & w & H & Hx).
  rewrite (rdlock_loop_spec _ _ _ _ _ _ _ H).
  case_bool_decide; intros [= <- <-]. cbn [queued]. exists (rq ++ [c]).
  unfold RWLock.rdqueue. cbn [ivars]. rewrite lookup_insert_eq.
  split; [done|]. apply elem_of_app. right. by apply list_elem_of_here.
Qed.

Lemma stops_queued_wrlock_loop cr : stops_queued (RWLock.wrlock_loop cr).
Proof.
  intros c s k s' (rq & wq & rh & w & H & Hx).
  rewrite (wrlock_loop_spec _ _ _ _ _ _ _ H).
  destruct (_ && _); intros [= <- <-]. cbn [queued]. exists (wq ++ [c]).
  unfold RWLock.wrqueue. cbn [ivars]. rewrite lookup_insert_eq.
  split; [done|]. apply elem_of_app. right. by apply list_elem_of_here.
Qed.

Lemma stops_queued_rdlock : stops_queued RWLock.rdlock.
Proof. intros c s. apply (stops_queued_rdlock_loop (critical s) c s). Qed.

Lemma stops_queued_wrlock : stops_queued RWLock.wrlock.
Proof. intros c s. apply (stops_queued_wrlock_loop (critical s) c s). Qed.

Lemma stops_queued_never {A} (m : M A) :
  (forall c s k s', m c s <> (Stop k, s')) -> stops_queued m.
Proof. intros Hm c s k s' _ E. by destruct (Hm c s k s'). Qed.

Lemma stops_queued_ret {A} (a : A) : stops_queued (ret a).
Proof. by apply stops_queued_never. Qed.

Lemma stops_queued_critical_set b : stops_queued (Thread_critical_set b).
Proof. by apply stops_queued_never. Qed.

Lemma stops_queued_bind {A B} (m : M A) (f : A -> M B) :
  preserves m -> stops_queued m -> (forall a, stops_queued (f a)) ->
  stops_queued (bind m f).
Proof.
  intros Hp Hm Hf c s k s' Hinv. unfold bind.
  specialize (Hp c s Hinv). specialize (Hm c s).
  destruct (m c s) as [[a|e|k1] s1]; cbn [snd] in *.
  - by apply Hf.
  - done.
  - intros [= <- <-]. by apply Hm.
Qed.

Lemma stops_queued_try {A} cr (m : M A) :
  preserves m -> stops_queued m ->
  stops_queued (in_frame (InTry cr) (ensure m (Thread_critical_set cr))).
Proof.
  intros Hp Hm c s k s' Hinv. unfold in_frame, ensure, Thread_critical_set.
  specialize (Hm c s).
  destruct (m c s) as [[a|e|k1] s1]; [done|done|].
  intros [= <- <-]. specialize (Hm k1 s1 Hinv eq_refl).
  by destruct k1 as [|[| | | |] k1].
Qed.

Lemma stops_queued_tryrdlock : stops_queued RWLock.tryrdlock.
Proof.
  unfold RWLock.tryrdlock. apply stops_queued_bind.
  { by intros c s H. }
  { by apply stops_queued_never. }
  intros cr. apply stops_queued_try.
  - apply preserves_bind; [by intros c s H|].
    intros [|]; [|apply preserves_ret].
    apply preserves_bind; [apply preserves_rdlock|intros _; apply preserves_ret].
  - apply stops_queued_bind; [by intros c s H|by apply stops_queued_never|].
    intros [|]; [|apply stops_queued_ret].
    apply stops_queued_bind;
      [apply preserves_rdlock|apply stops_queued_rdlock|intros _; apply stops_queued_ret].
Qed.

Lemma trywrlock_never_stops c s k s' :
  lock_inv s -> RWLock.trywrlock c s <> (Stop k, s').
Proof.
  intros (rq & wq & rh & w & H & Hx). rewrite (trywrlock_spec _ _ _ _ _ _ H).
  by destruct (_ && _).
Qed.

Lemma stops_queued_entry meth m :
  meth ∈ Sched.entry_points -> RWLock.method meth = Some m -> stops_queued m.
Proof.
  unfold Sched.entry_points. rewrite !elem_of_cons, elem_of_nil.
  intros [->|[->|[->|[->|[->|[]]]]]]; intros [= <-].
  - apply stops_queued_rdlock.
  - apply stops_queued_tryrdlock.
  - apply stops_queued_wrlock.
  - intros c s k s' Hinv E. by destruct (trywrlock_never_stops c s k s' Hinv).
  - intros c s k s' (rq & wq & rh & w & H & Hx).
    by rewrite (unlock_spec _ _ _ _ _ _ H).
Qed.

Lemma stops_queued_continue f m :
  preserves m -> stops_queued m -> stops_queued (RWLock.continue f m).
Proof.
  intros Hp Hm. destruct f; cbn [RWLock.continue].
  - apply stops_queued_bind; [done|done|intros _; apply stops_queued_rdlock_loop].
  - apply stops_queued_bind; [done|done|intros _; apply stops_queued_wrlock_loop].
  - apply stops_queued_bind; [done|done|intros _; apply stops_queued_rdlock].
  - apply stops_queued_bind; [done|done|intros _; apply stops_queued_wrlock].
  - apply stops_queued_try.
    + apply preserves_bind; [done|intros _; apply preserves_ret].
    + apply stops_queued_bind; [done|done|intros _; apply stops_queued_ret].
Qed.

Lemma stops_queued_resume k : stops_queued (RWLock.resume k).
Proof.
  unfold RWLock.resume.
  generalize (ret (S:=rstate) Qnil) (preserves_ret (A:=VALUE) Qnil)
    (stops_queued_ret (A:=VALUE) Qnil).
  induction k as [|f k IH]; intros m Hp Hm; cbn [fold_left]; [done|].
  apply IH; [by apply preserves_continue|by apply stops_queued_continue].
Qed.

Lemma settle_queued t r w s t' k' :
  (forall k s', r = (Stop k, s') -> queued t k s') ->
  (forall k, w !! t' = Some k -> queued t' k s) ->
  grows s (snd r) ->
  Sched.suspended (Sched.settle t r w) !! t' = Some k' ->
  queued t' k' (Sched.lock (Sched.settle t r w)).
Proof.
  intros Hr Hw Hg. rewrite settle_lock.
  destruct r as [[a|e|k] s']; cbn [Sched.settle Sched.suspended snd] in *.
  - intros [_ E]%lookup_delete_Some. by apply (queued_grows _ _ s), Hw.
  - intros [_ E]%lookup_delete_Some. by apply (queued_grows _ _ s), Hw.
  - destruct (decide (t = t')) as [->|Hne].
    + rewrite lookup_insert_eq. intros [= <-]. by apply Hr.
    + rewrite lookup_insert_ne by done. intros E.
      by apply (queued_grows _ _ s), Hw.
Qed.

(** X15: every thread the lock has stopped stands in the queue it
    waits for.  In every reachable state, a thread suspended in the
    loop of [rdlock] is listed in [@rdqueue] and a thread suspended in
    the loop of [wrlock] is listed in [@wrqueue]. *)
Theorem stopped_threads_are_queued (sys : Sched.system) (t : tid)
    (cr : bool) (k : list frame) :
  Sched.reachable sys ->
  (Sched.suspended sys !! t = Some (InRdlock cr :: k) ->
   exists l, RWLock.rdqueue (Sched.lock sys) = VArray l /\ t ∈ l)
  /\ (Sched.suspended sys !! t = Some (InWrlock cr :: k) ->
      exists l, RWLock.wrqueue (Sched.lock sys) = VArray l /\ t ∈ l).
Proof.
  intros R.
  assert (forall t k, Sched.suspended sys !! t = Some k ->
                      queued t k (Sched.lock sys)) as Hall.
  { clear t cr k. induction R as [|sys sys' R IH Hstep].
    - intros t k. cbn. by rewrite lookup_empty.
    - pose proof (reachable_lock_inv _ R) as Hinv.
      pose proof (reachable_idle_queue _ R) as Hq.
      destruct Hstep as [sys u meth m _ _ Hm1 Hm2|sys u k0 _ _|sys u _ _ _ _
                        |sys u _ _ _ _ _|sys u|sys b]; intros t k.
      + apply (settle_queued _ _ _ (Sched.lock sys)); [|apply IH|].
        * intros k1 s1 E. by apply (stops_queued_entry meth m Hm1 Hm2 u _ _ _ Hinv E).
        * by apply (orderly_entry meth m Hm1 Hm2 u _ Hinv Hq).
      + apply (settle_queued _ _ _ (Sched.lock sys)); [|apply IH|].
        * intros k1 s1 E. by apply (stops_queued_resume k0 u _ _ _ Hinv E).
        * by apply (orderly_resume k0 u _ Hinv Hq).
      + cbn [Sched.suspended Sched.lock].
        destruct (decide (u = t)) as [->|Hne].
        * rewrite lookup_insert_eq. by intros [= <-].
        * rewrite lookup_insert_ne by done. apply IH.
      + cbn [Sched.suspended Sched.lock].
        destruct (decide (u = t)) as [->|Hne].
        * rewrite lookup_insert_eq. by intros [= <-].
        * rewrite lookup_insert_ne by done. apply IH.
      + cbn [Sched.suspended Sched.lock]. intros E.
        by apply (queued_ivars _ _ (Sched.lock sys)), IH.
      + cbn [Sched.suspended Sched.lock]. intros E.
        by apply (queued_ivars _ _ (Sched.lock sys)), IH. }
  split; intros E; apply (Hall _ _ E).
Qed.

Lemma stopped_threads_are_queued_witness :
  Sched.reachable Scenario2.sys_both_queued
  /\ Sched.suspended Scenario2.sys_both_queued !! 3 = Some [InWrlock false]
  /\ exists l, RWLock.wrqueue (Sched.lock Scenario2.sys_both_queued) = VArray l
               /\ 3 ∈ l.
Proof.
  split; [apply reachable_sys_both_queued|].
  assert (Sched.suspended Scenario2.sys_both_queued !! 3 = Some [InWrlock false])
    as E by (vm_compute; reflexivity).
  split; [exact E|].
  exact (proj2 (stopped_threads_are_queued Scenario2.sys_both_queued 3 false []
                  reachable_sys_both_queued) E).
Defined.
